(** * RSA parity oracle (cryptopals set 6, challenge 46)

    A shallow embedding of [Set6_RSA_and_DSA/challenge_46.py]: the class
    [Oracle] with its method [validate_msg], and the bisection loop of
    [decrypt_attack], which turns the answers of the parity oracle into a
    shrinking interval of exact fractions of the modulus.

    Python's [int] is [Z]; [fractions.Fraction], which is always kept in
    lowest terms and compared by value, is [Qc] (the canonical rationals of
    the Standard Library); [bytes] is [list byte]. *)

From Stdlib Require Import ZArith Zpow_facts QArith Qcanon Qround.
From Stdlib Require Import List Bool Arith Lia Lqa.
From Stdlib.Strings Require Import Byte.
From Stdlib Require Ascii String.
Import ListNotations.

Local Open Scope Z_scope.

(** ** Python numbers *)

Module PyNum.

(** The two numeric types the locals [low] and [high] go through: they
    start as [int] ([low, high = 0, n]) and become [Fraction] at their
    first assignment in the loop ([high = n * high_frac]). *)
Inductive number : Type :=
| PyInt (z : Z)
| PyFraction (q : Qc).

(** [Fraction(z)] for an [int] [z]. *)
Definition Fraction (z : Z) : Qc := Q2Qc (inject_Z z).

(** The rational a number stands for; Python's [==] between an [int] and a
    [Fraction] compares these. *)
Definition value (x : number) : Qc :=
  match x with
  | PyInt z => Fraction z
  | PyFraction q => q
  end.

(** [math.floor]: the identity on [int], [numerator // denominator] on
    [Fraction]. *)
Definition floor (x : number) : Z :=
  match x with
  | PyInt z => z
  | PyFraction q => Qfloor q
  end.

(** [int.bit_length]: the number of binary digits of the absolute value,
    [0] for [0]. *)
Definition bit_length (z : Z) : nat :=
  match z with
  | Z0 => O
  | Zpos p => Pos.size_nat p
  | Zneg p => Pos.size_nat p
  end.

(** Truth value of an [int], as [not] and [if] see it. *)
Definition truthy (z : Z) : bool := negb (z =? 0).

End PyNum.
Import PyNum.

(** ** The collaborator: [Utils.PublicKey.RSA] *)

Definition bytes : Type := list byte.

(** Modelled from the spec: the class [RSA] of [Utils/PublicKey.py], which is
    not among the sources.  Only what [challenge_46.py] uses of a key is kept:
    the public modulus [n], [encrypt(m, input_bytes=False)] and
    [decrypt(c, output_bytes=False)], both from integers to integers and
    without side effects.  The two maps are left arbitrary. *)
Record RSA : Type := mkRSA {
  n : Z;
  encrypt : Z -> Z;
  decrypt : Z -> Z
}.

(** Modelled from the spec: a textbook key, [encrypt m = m^e mod n] and
    [decrypt c = c^d mod n] (the spec's "modular exponentiation" primitives),
    used for the concrete runs below. *)
Definition textbook_rsa (n e d : Z) : RSA :=
  {| n := n;
     encrypt := fun m => (m ^ e) mod n;
     decrypt := fun c => (c ^ d) mod n |}.

Definition byte_of_Z (z : Z) : byte :=
  match Byte.of_N (Z.to_N (z mod 256)) with
  | Some b => b
  | None => x00
  end.

(** [x.to_bytes(length, 'big')], for [x] that fits: the byte of weight
    [256^j] is [(x >> 8j) & 255], the heaviest first. *)
Definition to_bytes_big (x : Z) (length : nat) : bytes :=
  map (fun j => byte_of_Z (Z.shiftr x (8 * Z.of_nat j))) (rev (seq 0 length)).

(** Modelled from the spec: the static method [RSA.integer_to_bytes_squeezed]
    of [Utils/PublicKey.py], which is not among the sources.  The integer is
    written big-endian on the least number of bytes that holds it,
    [ceil(bit_length / 8)]: no byte for [0], no leading zero byte. *)
Definition integer_to_bytes_squeezed (x : Z) : bytes :=
  to_bytes_big x (Nat.div (bit_length x + 7) 8).

Definition byte_to_Z (b : byte) : Z := Z.of_N (Byte.to_N b).

(** The integer a byte string stands for, big-endian
    ([int.from_bytes(b, 'big')]); the properties of the squeezed form are
    stated with it. *)
Definition bytes_to_integer (b : bytes) : Z :=
  fold_left (fun acc x => acc * 256 + byte_to_Z x) b 0.

(** ** class Oracle *)

(** [__init__] draws a fresh 1024-bit key with [RSA(1024)]; key generation
    is the collaborator's, so the key is given when the oracle is built. *)
Record Oracle : Type := mkOracle { rsa : RSA }.

(** [Oracle.validate_msg]: "Return True if the parity bit is zero".
    [not msg & 1] parses as [not (msg & 1)]. *)
Definition validate_msg (self : Oracle) (cipher : Z) : bool :=
  let msg := decrypt (rsa self) cipher in
  negb (truthy (Z.land msg 1)).

(** ** decrypt_attack *)

(** The four interval variables: the bounds as fractions of [n], and their
    mirrors scaled by [n]. *)
Record interval : Type := mkInterval {
  low_frac : Qc;
  high_frac : Qc;
  low : number;
  high : number
}.

(** What the run does towards the outside: the calls of
    [oracle.validate_msg] with their answers, and the lines printed. *)
Inductive event : Type :=
| Query (cipher : Z) (res : bool)
| Print (i : nat) (msg : bytes).

(** The locals of [decrypt_attack] that change in the loop.  [msg] is [None]
    as long as the name is unbound. *)
Record locals : Type := mkLocals {
  cipher : Z;
  bounds : interval;
  msg : option bytes;
  trace : list event
}.

(** Lines 69-70. *)
Definition initial (n : Z) : interval :=
  {| low_frac := Fraction 0;
     high_frac := Fraction 1;
     low := PyInt 0;
     high := PyInt n |}.

(** Lines 81-88: the update of the interval on the oracle's answer. *)
Definition halve (n : Z) (res : bool) (b : interval) : interval :=
  if res then
    let high_frac' := ((high_frac b - low_frac b) / Fraction 2 + low_frac b)%Qc in
    {| low_frac := low_frac b;
       high_frac := high_frac';
       low := low b;
       high := PyFraction (Fraction n * high_frac')%Qc |}
  else
    let low_frac' := ((high_frac b - low_frac b) / Fraction 2 + low_frac b)%Qc in
    {| low_frac := low_frac';
       high_frac := high_frac b;
       low := PyFraction (Fraction n * low_frac')%Qc;
       high := high b |}.

(** Lines 74-91: one pass through the loop body, at index [i]. *)
Definition body (oracle : Oracle) (s : locals) (i : nat) : locals :=
  let n := n (rsa oracle) in
  let cipher := (cipher s * encrypt (rsa oracle) 2) mod n in
  let res := validate_msg oracle cipher in
  let b := halve n res (bounds s) in
  let msg := integer_to_bytes_squeezed (floor (high b)) in
  {| cipher := cipher;
     bounds := b;
     msg := Some msg;
     trace := trace s ++ [Query cipher res; Print i msg] |}.

(** The locals on entry to the loop. *)
Definition start (oracle : Oracle) (cipher : Z) : locals :=
  {| cipher := cipher;
     bounds := initial (n (rsa oracle));
     msg := None;
     trace := [] |}.

(** The locals after the first [k] passes of [for i in range(...)]. *)
Definition rounds (oracle : Oracle) (cipher : Z) (k : nat) : locals :=
  fold_left (body oracle) (seq 0 k) (start oracle cipher).

Inductive exception : Type :=
| UnboundLocalError.

Inductive result (A : Type) : Type :=
| Return (a : A)
| Raise (e : exception).
Arguments Return {A} a.
Arguments Raise {A} e.

Definition num_repetitions (oracle : Oracle) : nat :=
  bit_length (n (rsa oracle)).

(** The locals when the loop is left. *)
Definition final (oracle : Oracle) (cipher : Z) : locals :=
  rounds oracle cipher (num_repetitions oracle).

(** Lines 67-93.  [return msg] raises when the loop never bound [msg]. *)
Definition decrypt_attack (oracle : Oracle) (cipher : Z) : result bytes :=
  match msg (final oracle cipher) with
  | Some m => Return m
  | None => Raise UnboundLocalError
  end.

(** The interval driven by a list of answers alone, oldest first: what the
    loop computes when the oracle, whatever it is, says [answers]. *)
Definition bisect (n : Z) (answers : list bool) (b : interval) : interval :=
  fold_left (fun b res => halve n res b) answers b.

(** The ciphertext after [k] doublings (line 75). *)
Fixpoint doubled (oracle : Oracle) (c : Z) (k : nat) : Z :=
  match k with
  | O => c
  | S k' => (doubled oracle c k' * encrypt (rsa oracle) 2) mod n (rsa oracle)
  end.

(** The answer of the oracle in round [i], counted from 0. *)
Definition answer (oracle : Oracle) (c : Z) (i : nat) : bool :=
  validate_msg oracle (doubled oracle c (S i)).

Definition answers (oracle : Oracle) (c : Z) (k : nat) : list bool :=
  map (answer oracle c) (seq 0 k).

(** The candidates printed so far, in order. *)
Definition printed (t : list event) : list bytes :=
  flat_map (fun e => match e with Print _ m => [m] | Query _ _ => [] end) t.

(** The ciphertexts the oracle was asked about, in order. *)
Definition queried (t : list event) : list Z :=
  flat_map (fun e => match e with Query c _ => [c] | Print _ _ => [] end) t.

(** The answers the oracle gave, in order. *)
Definition replies (t : list event) : list bool :=
  flat_map (fun e => match e with Query _ r => [r] | Print _ _ => [] end) t.

(** ** Vocabulary of the properties *)

(** Homomorphic doubling, the one property of the key the attack rests on:
    multiplying a ciphertext by the encryption of 2 doubles its plaintext
    modulo [n]. *)
Definition homomorphic (r : RSA) : Prop :=
  forall c, decrypt r ((c * encrypt r 2) mod n r) = (2 * decrypt r c) mod n r.

(** The plaintext [m] after [k] doublings modulo [n]. *)
Definition doubled_plain (n m : Z) (k : nat) : Z :=
  (2 ^ Z.of_nat k * m) mod n.

(** Two textbook keys for the concrete runs: [p = 3, q = 5] and
    [p = 2, q = 5], both with [e = d = 3]. *)
Definition odd_key : Oracle := mkOracle (textbook_rsa 15 3 3).
Definition even_key : Oracle := mkOracle (textbook_rsa 10 3 3).

(** The point both branches of lines 81-88 compute, as the source writes
    it. *)
Definition midpoint (lo hi : Qc) : Qc := ((hi - lo) / Fraction 2 + lo)%Qc.

(** [0 <= low_frac <= high_frac <= 1]. *)
Definition well_formed (b : interval) : Prop :=
  (0 <= low_frac b)%Qc /\ (low_frac b <= high_frac b)%Qc /\
  (high_frac b <= 1)%Qc.

(** [low == n * low_frac and high == n * high_frac], with Python's [==]. *)
Definition in_sync (n : Z) (b : interval) : Prop :=
  value (low b) = (Fraction n * low_frac b)%Qc /\
  value (high b) = (Fraction n * high_frac b)%Qc.

(** The answers read as binary digits, first answer heaviest: [True] (the
    upper bound moved) is the digit 0, [False] (the lower bound moved) the
    digit 1. *)
Definition digits (answers : list bool) : Z :=
  fold_left (fun a (res : bool) => 2 * a + (if res then 0 else 1)) answers 0.

(** A byte string without its leading zero bytes. *)
Fixpoint strip_zeros (b : bytes) : bytes :=
  match b with
  | x00 :: rest => strip_zeros rest
  | _ => b
  end.

(** ** main *)

(** Modelled from the spec: [rsa.encrypt(msg)] on [bytes], the default
    [input_bytes=True] of [Utils/PublicKey.py]: the message is read as a
    big-endian integer and that integer is encrypted. *)
Definition encrypt_bytes (key : RSA) (m : bytes) : Z :=
  encrypt key (bytes_to_integer m).

Module Base64.
Import Ascii String.

(** The value of a character of the standard alphabet [A-Za-z0-9+/]. *)
Definition sextet (c : ascii) : option Z :=
  let v := Z.of_N (N_of_ascii c) in
  if (65 <=? v) && (v <=? 90) then Some (v - 65)
  else if (97 <=? v) && (v <=? 122) then Some (v - 71)
  else if (48 <=? v) && (v <=? 57) then Some (v + 4)
  else if v =? 43 then Some 62
  else if v =? 47 then Some 63
  else None.

Definition is_pad (c : ascii) : bool := Z.of_N (N_of_ascii c) =? 61.

(** Four characters give three bytes; a last group padded with one or two
    [=] gives two bytes or one. *)
Fixpoint decode_quads (cs : list ascii) : option bytes :=
  match cs with
  | [] => Some []
  | a :: b :: c :: d :: rest =>
      match sextet a, sextet b, sextet c, sextet d, rest with
      | Some x, Some y, Some z, Some w, _ =>
          let v := ((x * 64 + y) * 64 + z) * 64 + w in
          match decode_quads rest with
          | Some tl =>
              Some (byte_of_Z (v / 65536) :: byte_of_Z (v / 256) ::
                    byte_of_Z v :: tl)
          | None => None
          end
      | Some x, Some y, Some z, None, [] =>
          if is_pad d
          then let v := (x * 64 + y) * 64 + z in
               Some [byte_of_Z (v / 1024); byte_of_Z (v / 4)]
          else None
      | Some x, Some y, None, None, [] =>
          if is_pad c && is_pad d
          then Some [byte_of_Z ((x * 64 + y) / 16)]
          else None
      | _, _, _, _, _ => None
      end
  | _ => None
  end.

(** [base64.b64decode] of the Python library, on what [main] gives it: a
    string of whole groups of four characters of the standard alphabet, the
    last group padded with [=].  [None] is [binascii.Error] (a length that
    is no multiple of four) or input outside this form, where Python would
    first discard the stray characters. *)
Definition b64decode (s : string) : option bytes :=
  decode_quads (list_ascii_of_string s).

(** Line 100: the given message. *)
Definition given_message : string :=
  "VGhhdCdzIHdoeSBJIGZvdW5kIHlvdSBkb24ndCBwbGF5IGFyb3VuZCB3aXRoIHRoZSBGdW5reSBDb2xkIE1lZGluYQ==".

End Base64.

(** What [main] writes to the standard output: the lines of the loop and the
    last line, [recovered_message=...]. *)
Inductive line : Type :=
| Iteration (i : nat) (msg : bytes)
| Recovered (recovered_message : bytes).

Definition stdout (t : list event) : list line :=
  flat_map
    (fun e => match e with Print i m => [Iteration i m] | Query _ _ => [] end)
    t.

(** What can end [main] early. *)
Inductive uncaught : Type :=
| binascii_Error
| from_attack (e : exception).

(** Lines 96-108, for the key that [Oracle()] drew: the lines written, and
    the exception that ended the run, if any. *)
Definition main (key : RSA) : list line * option uncaught :=
  let oracle := mkOracle key in
  match Base64.b64decode Base64.given_message with
  | None => ([], Some binascii_Error)
  | Some msg =>
      let cipher := encrypt_bytes (rsa oracle) msg in
      let written := stdout (trace (final oracle cipher)) in
      match decrypt_attack oracle cipher with
      | Return recovered_message =>
          (written ++ [Recovered recovered_message], None)
      | Raise e => (written, Some (from_attack e))
      end
  end.

(** The text the given message stands for. *)
Definition funky_cold_medina : bytes :=
  map byte_of_Z
    [84; 104; 97; 116; 39; 115; 32; 119; 104; 121; 32; 73; 32; 102; 111;
     117; 110; 100; 32; 121; 111; 117; 32; 100; 111; 110; 39; 116; 32; 112;
     108; 97; 121; 32; 97; 114; 111; 117; 110; 100; 32; 119; 105; 116; 104;
     32; 116; 104; 101; 32; 70; 117; 110; 107; 121; 32; 67; 111; 108; 100;
     32; 77; 101; 100; 105; 110; 97].

(** * Properties *)

(** ** Concrete runs *)

Example bit_length_examples :
  map bit_length [0; 1; 2; 10; 15; 16; -16; 255; 256] =
  [0; 1; 2; 4; 4; 5; 5; 8; 9]%nat.
Proof. reflexivity. Qed.

Example squeezed_examples :
  integer_to_bytes_squeezed 0 = [] /\
  integer_to_bytes_squeezed 255 = [xff] /\
  integer_to_bytes_squeezed 256 = [x01; x00] /\
  integer_to_bytes_squeezed 12345 = [x30; x39].
Proof. repeat split. Qed.

Example validate_msg_examples :
  map (validate_msg odd_key) [0; 1; 2; 13; 14] =
  [true; false; true; false; true].
Proof. reflexivity. Qed.

(** The plaintext 7 under [n = 15]: the oracle is asked about the ciphertexts
    of 14, 13, 11 and 7, and the printed candidate is 7 from the start. *)
Example odd_key_run :
  trace (final odd_key 13) =
  [Query 14 true; Print 0 [x07]; Query 7 false; Print 1 [x07];
   Query 11 false; Print 2 [x07]; Query 13 false; Print 3 [x07]] /\
  decrypt_attack odd_key 13 = Return [x07].
Proof. split; vm_compute; reflexivity. Qed.

Example no_modulus_run :
  decrypt_attack (mkOracle (mkRSA 0 (fun m => m) (fun c => c))) 5 =
  Raise UnboundLocalError.
Proof. reflexivity. Qed.

(** ** Arithmetic of fractions *)

Lemma Qinv_2 : (/ inject_Z 2 == 1 # 2)%Q.
Proof. reflexivity. Qed.

(** Goals on [Qc] are settled on the underlying [Q], where [field] and [lra]
    work: every operation of [Qc] is the one of [Q] followed by [Qred]. *)
Ltac to_Q :=
  try apply Qc_is_canon;
  unfold Qcle, Qclt in *;
  repeat (progress (unfold Qcplus, Qcminus, Qcdiv, Qcmult, Qcinv, Qcopp,
                      Fraction in *;
                    cbn [this Q2Qc] in *));
  rewrite ?Qred_correct in *;
  rewrite ?Qinv_2 in *.

Section Fractions.

Local Open Scope Qc_scope.

Lemma midpoint_alt lo hi : midpoint lo hi = lo + (hi - lo) / Fraction 2.
Proof. unfold midpoint. to_Q. ring. Qed.

Lemma midpoint_width_low lo hi :
  midpoint lo hi - lo = (hi - lo) / Fraction 2.
Proof. unfold midpoint. to_Q. ring. Qed.

Lemma midpoint_width_high lo hi :
  hi - midpoint lo hi = (hi - lo) / Fraction 2.
Proof. unfold midpoint. to_Q. field. Qed.

Lemma midpoint_between lo hi :
  lo <= hi -> lo <= midpoint lo hi /\ midpoint lo hi <= hi.
Proof. unfold midpoint. intros H. split; to_Q; lra. Qed.

Lemma Fraction_mult_distr z x y :
  Fraction z * x - Fraction z * y = Fraction z * (x - y).
Proof. to_Q. ring. Qed.

End Fractions.

(** ** The loop, round by round *)

Lemma rounds_S oracle c k :
  rounds oracle c (S k) = body oracle (rounds oracle c k) k.
Proof.
  unfold rounds. rewrite seq_S, fold_left_app. reflexivity.
Qed.

Lemma answers_S oracle c k :
  answers oracle c (S k) = answers oracle c k ++ [answer oracle c k].
Proof.
  unfold answers. rewrite seq_S, map_app. reflexivity.
Qed.

Lemma bisect_app n xs ys b :
  bisect n (xs ++ ys) b = bisect n ys (bisect n xs b).
Proof. apply fold_left_app. Qed.

Lemma cipher_rounds oracle c k :
  cipher (rounds oracle c k) = doubled oracle c k.
Proof.
  induction k as [|k IH]; [reflexivity|].
  rewrite rounds_S. cbn [body cipher doubled]. now rewrite IH.
Qed.

(** The interval after [k] rounds depends on the oracle through its answers
    only. *)
Lemma bounds_rounds oracle c k :
  bounds (rounds oracle c k) =
  bisect (n (rsa oracle)) (answers oracle c k) (initial (n (rsa oracle))).
Proof.
  induction k as [|k IH]; [reflexivity|].
  rewrite rounds_S, answers_S, bisect_app. cbn [body bounds bisect fold_left].
  rewrite cipher_rounds, IH. reflexivity.
Qed.

Lemma bounds_rounds_S oracle c k :
  bounds (rounds oracle c (S k)) =
  halve (n (rsa oracle)) (answer oracle c k) (bounds (rounds oracle c k)).
Proof.
  rewrite rounds_S. cbn [body bounds]. now rewrite cipher_rounds.
Qed.

Lemma trace_rounds_S oracle c k :
  trace (rounds oracle c (S k)) =
  trace (rounds oracle c k) ++
  [Query (doubled oracle c (S k)) (answer oracle c k);
   Print k (integer_to_bytes_squeezed
              (floor (high (bounds (rounds oracle c (S k))))))].
Proof.
  rewrite bounds_rounds_S, rounds_S. cbn [body trace].
  now rewrite cipher_rounds.
Qed.

Lemma msg_rounds_S oracle c k :
  msg (rounds oracle c (S k)) =
  Some (integer_to_bytes_squeezed
          (floor (high (bounds (rounds oracle c (S k)))))).
Proof.
  rewrite bounds_rounds_S, rounds_S. cbn [body msg].
  now rewrite cipher_rounds.
Qed.

(** ** Invariants of the interval *)

Section Interval.

Local Open Scope Qc_scope.

Variable n : Z.

Lemma halve_fracs res b :
  low_frac (halve n res b) =
    (if res then low_frac b else midpoint (low_frac b) (high_frac b)) /\
  high_frac (halve n res b) =
    (if res then midpoint (low_frac b) (high_frac b) else high_frac b).
Proof. destruct res; split; reflexivity. Qed.

Lemma well_formed_initial : well_formed (initial n).
Proof. repeat split; vm_compute; discriminate. Qed.

Lemma well_formed_halve res b :
  well_formed b -> well_formed (halve n res b).
Proof.
  intros (H0 & Hle & H1).
  destruct (midpoint_between _ _ Hle) as [Hlo Hhi].
  unfold well_formed.
  destruct (halve_fracs res b) as [-> ->].
  destruct res; repeat split; eauto using Qcle_trans.
Qed.

Lemma well_formed_bisect answers b :
  well_formed b -> well_formed (bisect n answers b).
Proof.
  revert b. induction answers as [|res answers IH]; intros b Hb; [exact Hb|].
  cbn. apply IH, well_formed_halve, Hb.
Qed.

Lemma in_sync_initial : in_sync n (initial n).
Proof. unfold in_sync, initial; cbn. split; to_Q; ring. Qed.

Lemma in_sync_halve res b : in_sync n b -> in_sync n (halve n res b).
Proof.
  intros [Hlo Hhi]. destruct res; split; cbn; auto.
Qed.

Lemma in_sync_bisect answers b :
  in_sync n b -> in_sync n (bisect n answers b).
Proof.
  revert b. induction answers as [|res answers IH]; intros b Hb; [exact Hb|].
  cbn. apply IH, in_sync_halve, Hb.
Qed.

Lemma halve_width res b :
  high_frac (halve n res b) - low_frac (halve n res b) =
  (high_frac b - low_frac b) / Fraction 2.
Proof.
  destruct (halve_fracs res b) as [-> ->].
  destruct res; [apply midpoint_width_low | apply midpoint_width_high].
Qed.

Lemma halve_monotone res b :
  low_frac b <= high_frac b ->
  low_frac b <= low_frac (halve n res b) /\
  high_frac (halve n res b) <= high_frac b.
Proof.
  intros Hle. destruct (midpoint_between _ _ Hle) as [Hlo Hhi].
  destruct (halve_fracs res b) as [-> ->].
  destruct res; split; auto using Qcle_refl.
Qed.

Lemma bisect_monotone more b :
  low_frac b <= high_frac b ->
  low_frac b <= low_frac (bisect n more b) /\
  high_frac (bisect n more b) <= high_frac b /\
  low_frac (bisect n more b) <= high_frac (bisect n more b).
Proof.
  revert b. induction more as [|res more IH]; intros b Hle.
  - cbn. auto using Qcle_refl.
  - destruct (halve_monotone res b Hle) as [Hlo Hhi].
    assert (Hle' : low_frac (halve n res b) <= high_frac (halve n res b)).
    { destruct (midpoint_between _ _ Hle) as [H1 H2].
      destruct (halve_fracs res b) as [-> ->]. destruct res; assumption. }
    destruct (IH _ Hle') as (H1 & H2 & H3). cbn.
    repeat split; eauto using Qcle_trans.
Qed.

Lemma floor_value x : floor x = Qfloor (value x).
Proof.
  destruct x as [z|q]; [|reflexivity].
  change (z = Qfloor (Qred (inject_Z z))).
  rewrite (Qfloor_comp _ _ (Qred_correct (inject_Z z))).
  symmetry. apply Qfloor_Z.
Qed.

End Interval.

(** ** The halving rule and the invariants, on the loop itself *)

Section Bisection.

Local Open Scope Qc_scope.

(** C2. In every round, an answer [True] moves the upper bound only, to
    [low + (high - low)/2], and an answer [False] moves the lower bound
    only, to the same point; the other bound, fraction and scaled mirror
    alike, is left as it was.  This holds for the update on any answer and
    any interval, and for each round of the loop on the answer the oracle
    gave in that round. *)
Theorem halving_rule :
  (forall n (res : bool) (b : interval),
      let mid := low_frac b + (high_frac b - low_frac b) / Fraction 2 in
      if res return Prop
      then high_frac (halve n res b) = mid /\
           low_frac (halve n res b) = low_frac b /\
           low (halve n res b) = low b
      else low_frac (halve n res b) = mid /\
           high_frac (halve n res b) = high_frac b /\
           high (halve n res b) = high b) /\
  (forall oracle c k,
      let before := bounds (rounds oracle c k) in
      let after := bounds (rounds oracle c (S k)) in
      let mid :=
        low_frac before + (high_frac before - low_frac before) / Fraction 2 in
      if answer oracle c k return Prop
      then high_frac after = mid /\
           low_frac after = low_frac before /\ low after = low before
      else low_frac after = mid /\
           high_frac after = high_frac before /\ high after = high before).
Proof.
  assert (Hstep : forall n (res : bool) (b : interval),
             if res return Prop
             then high_frac (halve n res b) =
                    low_frac b + (high_frac b - low_frac b) / Fraction 2 /\
                  low_frac (halve n res b) = low_frac b /\
                  low (halve n res b) = low b
             else low_frac (halve n res b) =
                    low_frac b + (high_frac b - low_frac b) / Fraction 2 /\
                  high_frac (halve n res b) = high_frac b /\
                  high (halve n res b) = high b).
  { intros n res b. rewrite <- midpoint_alt.
    destruct res; repeat split; reflexivity. }
  split.
  - intros n res b. apply Hstep.
  - intros oracle c k. cbv zeta. rewrite bounds_rounds_S. apply Hstep.
Qed.

(** C3. Whatever the oracle answers, truthfully or not, the exact bounds
    satisfy [0 <= low_frac <= high_frac <= 1] after any number of rounds:
    for every list of answers, and so at every point of the loop run
    against any oracle. *)
Theorem interval_invariant :
  (forall n (answers : list bool),
      let b := bisect n answers (initial n) in
      0 <= low_frac b /\ low_frac b <= high_frac b /\ high_frac b <= 1) /\
  (forall oracle c k,
      let b := bounds (rounds oracle c k) in
      0 <= low_frac b /\ low_frac b <= high_frac b /\ high_frac b <= 1).
Proof.
  split.
  - intros n answers. apply well_formed_bisect, well_formed_initial.
  - intros oracle c k. cbv zeta. rewrite bounds_rounds.
    apply well_formed_bisect, well_formed_initial.
Qed.

(** C4. In every round, on either answer, the width [high_frac - low_frac]
    becomes exactly half of what it was, [low_frac] does not decrease and
    [high_frac] does not increase; over any further answers [low_frac]
    stays at or above, and [high_frac] at or below, where it was. *)
Theorem interval_monotonicity :
  (forall n (answers : list bool) res,
      let before := bisect n answers (initial n) in
      let after := halve n res before in
      high_frac after - low_frac after =
        (high_frac before - low_frac before) / Fraction 2 /\
      low_frac before <= low_frac after /\
      high_frac after <= high_frac before) /\
  (forall oracle c k,
      let before := bounds (rounds oracle c k) in
      let after := bounds (rounds oracle c (S k)) in
      high_frac after - low_frac after =
        (high_frac before - low_frac before) / Fraction 2 /\
      low_frac before <= low_frac after /\
      high_frac after <= high_frac before) /\
  (forall n (answers more : list bool),
      let before := bisect n answers (initial n) in
      let after := bisect n (answers ++ more) (initial n) in
      low_frac before <= low_frac after /\
      high_frac after <= high_frac before).
Proof.
  assert (Hwf : forall n answers,
             low_frac (bisect n answers (initial n)) <=
             high_frac (bisect n answers (initial n))).
  { intros n answers.
    apply (well_formed_bisect n answers), well_formed_initial. }
  repeat split.
  - apply halve_width.
  - apply halve_monotone, Hwf.
  - apply halve_monotone, Hwf.
  - rewrite bounds_rounds_S. apply halve_width.
  - rewrite bounds_rounds_S, bounds_rounds. apply halve_monotone, Hwf.
  - rewrite bounds_rounds_S, bounds_rounds. apply halve_monotone, Hwf.
  - rewrite bisect_app. apply bisect_monotone, Hwf.
  - rewrite bisect_app. apply bisect_monotone, Hwf.
Qed.

(** C9. The scaled mirrors follow the fractions: after any number of rounds
    [high == n * high_frac] and [low == n * low_frac], so [math.floor(high)]
    is the floor of [n * high_frac]; the candidate bound to [msg] and
    printed in each round, and the value returned, are the bytes of that
    floor. *)
Theorem mirrors_in_sync :
  forall oracle c,
    let n := n (rsa oracle) in
    (forall k,
        let b := bounds (rounds oracle c k) in
        value (high b) = Fraction n * high_frac b /\
        value (low b) = Fraction n * low_frac b /\
        floor (high b) = Qfloor (Fraction n * high_frac b)%Qc) /\
    (forall k,
        let s := rounds oracle c (S k) in
        let candidate :=
          integer_to_bytes_squeezed
            (Qfloor (Fraction n * high_frac (bounds s))%Qc) in
        msg s = Some candidate /\
        trace s = trace (rounds oracle c k) ++
                  [Query (cipher s) (answer oracle c k);
                   Print k candidate]) /\
    decrypt_attack oracle c =
      match num_repetitions oracle with
      | O => Raise UnboundLocalError
      | S _ =>
          Return (integer_to_bytes_squeezed
                    (Qfloor (Fraction n *
                             high_frac (bounds (final oracle c)))%Qc))
      end.
Proof.
  intros oracle c n0.
  assert (Hsync : forall k, in_sync n0 (bounds (rounds oracle c k))).
  { intros k. rewrite bounds_rounds.
    apply in_sync_bisect, in_sync_initial. }
  assert (Hfloor : forall k,
             floor (high (bounds (rounds oracle c k))) =
             Qfloor (Fraction n0 * high_frac (bounds (rounds oracle c k)))%Qc).
  { intros k. rewrite floor_value. destruct (Hsync k) as [_ Hhi].
    rewrite Hhi. reflexivity. }
  repeat split.
  - apply Hsync.
  - apply Hsync.
  - apply Hfloor.
  - rewrite <- Hfloor. apply msg_rounds_S.
  - rewrite <- Hfloor, cipher_rounds.
    apply trace_rounds_S.
  - unfold decrypt_attack, final.
    destruct (num_repetitions oracle) as [|k]; [reflexivity|].
    rewrite msg_rounds_S, Hfloor. reflexivity.
Qed.

End Bisection.

(** ** The parity oracle *)

Lemma land_1_parity m : Z.land m 1 = if Z.even m then 0 else 1.
Proof.
  change 1 with (Z.ones 1) at 1. rewrite Z.land_ones by lia.
  change (2 ^ 1) with 2. apply Zmod_even.
Qed.

(** C6. [validate_msg] answers [True] exactly when the integer the private
    key decrypts its argument to has lowest bit 0, that is, is even.  In the
    model the method is a function to [bool]: the boolean is all it gives
    back. *)
Theorem validate_msg_even :
  forall oracle c,
    let m := decrypt (rsa oracle) c in
    validate_msg oracle c = negb (Z.testbit m 0) /\
    validate_msg oracle c = Z.even m.
Proof.
  intros oracle c m. unfold validate_msg, truthy. fold m.
  rewrite Z.bit0_odd, <- Z.negb_even, land_1_parity.
  destruct (Z.even m); split; reflexivity.
Qed.

(** ** The number of rounds *)

Lemma bit_length_0 z : bit_length z = O <-> z = 0.
Proof.
  destruct z as [|p|p]; cbn; split; try discriminate; try reflexivity;
    destruct p; discriminate.
Qed.

Lemma bit_length_pos z : 1 <= z -> (1 <= bit_length z)%nat.
Proof.
  intros Hz. destruct (bit_length z) eqn:E; [|lia].
  apply bit_length_0 in E. lia.
Qed.

Lemma size_nat_bounds p :
  2 ^ Z.of_nat (Pos.size_nat p) <= 2 * Z.pos p < 2 * 2 ^ Z.of_nat (Pos.size_nat p).
Proof.
  induction p as [p IH|p IH|]; cbn [Pos.size_nat].
  - rewrite Nat2Z.inj_succ, Z.pow_succ_r by lia. lia.
  - rewrite Nat2Z.inj_succ, Z.pow_succ_r by lia. lia.
  - cbn. lia.
Qed.

(** [bit_length] is the number of binary digits:
    [2^(k-1) <= z < 2^k] for [k = bit_length z] and [z >= 1]. *)
Lemma bit_length_bounds z :
  1 <= z ->
  2 ^ Z.of_nat (bit_length z) <= 2 * z /\ z < 2 ^ Z.of_nat (bit_length z).
Proof.
  intros Hz. destruct z as [|p|p]; try lia.
  cbn [bit_length]. pose proof (size_nat_bounds p). lia.
Qed.

Lemma queried_app t u : queried (t ++ u) = queried t ++ queried u.
Proof. apply flat_map_app. Qed.

Lemma printed_app t u : printed (t ++ u) = printed t ++ printed u.
Proof. apply flat_map_app. Qed.

Lemma queried_rounds oracle c k :
  queried (trace (rounds oracle c k)) = map (doubled oracle c) (seq 1 k).
Proof.
  induction k as [|k IH]; [reflexivity|].
  rewrite trace_rounds_S, queried_app, IH, seq_S, map_app. reflexivity.
Qed.

Lemma printed_rounds_S oracle c k :
  printed (trace (rounds oracle c (S k))) =
  printed (trace (rounds oracle c k)) ++
  [integer_to_bytes_squeezed (floor (high (bounds (rounds oracle c (S k)))))].
Proof. rewrite trace_rounds_S, printed_app. reflexivity. Qed.

Lemma printed_rounds_length oracle c k :
  length (printed (trace (rounds oracle c k))) = k.
Proof.
  induction k as [|k IH]; [reflexivity|].
  rewrite printed_rounds_S, length_app, IH. cbn. lia.
Qed.

(** C7. The loop makes exactly [n.bit_length()] passes, each with one call of
    the oracle and one printed line: the ciphertexts asked about are the
    first [bit_length n] doublings of the target.  The count is read off [n]
    before the first pass, so two oracles with the same modulus are asked
    equally often whatever they answer; the run is a total function, it
    always ends. *)
Theorem round_count :
  forall oracle c,
    num_repetitions oracle = bit_length (n (rsa oracle)) /\
    queried (trace (final oracle c)) =
      map (doubled oracle c) (seq 1 (bit_length (n (rsa oracle)))) /\
    length (queried (trace (final oracle c))) = bit_length (n (rsa oracle)) /\
    length (printed (trace (final oracle c))) = bit_length (n (rsa oracle)) /\
    length (trace (final oracle c)) = (2 * bit_length (n (rsa oracle)))%nat /\
    (forall oracle' c',
        n (rsa oracle') = n (rsa oracle) ->
        length (queried (trace (final oracle' c'))) =
        length (queried (trace (final oracle c)))).
Proof.
  assert (Hq : forall oracle c,
             length (queried (trace (final oracle c))) =
             bit_length (n (rsa oracle))).
  { intros oracle c. unfold final. rewrite queried_rounds.
    now rewrite length_map, length_seq. }
  intros oracle c. repeat split.
  - apply queried_rounds.
  - apply Hq.
  - apply printed_rounds_length.
  - unfold final, num_repetitions.
    induction (bit_length (n (rsa oracle))) as [|k IH]; [reflexivity|].
    rewrite trace_rounds_S, length_app, IH. cbn. lia.
  - intros oracle' c' Hn. rewrite !Hq. now rewrite Hn.
Qed.

Lemma round_count_witness :
  length (queried (trace (final (mkOracle (textbook_rsa 15 3 3)) 13))) =
  length (queried (trace (final (mkOracle (mkRSA 15 (fun m => m) (fun _ => 1))) 2))).
Proof.
  apply (proj2 (proj2 (proj2 (proj2 (proj2
    (round_count (mkOracle (mkRSA 15 (fun m => m) (fun _ => 1))) 2)))))
    (mkOracle (textbook_rsa 15 3 3)) 13).
  reflexivity.
Defined.

(** ** The squeezed byte form *)

Lemma byte_to_Z_of_Z z : byte_to_Z (byte_of_Z z) = z mod 256.
Proof.
  unfold byte_to_Z, byte_of_Z.
  assert (Hr : 0 <= z mod 256 < 256) by (apply Z.mod_pos_bound; lia).
  destruct (Byte.of_N (Z.to_N (z mod 256))) as [b|] eqn:E.
  - apply Byte.to_of_N in E. rewrite E. apply Z2N.id. lia.
  - apply Byte.of_N_None_iff in E. lia.
Qed.

Lemma to_bytes_big_S x k :
  to_bytes_big x (S k) =
  byte_of_Z (Z.shiftr x (8 * Z.of_nat k)) :: to_bytes_big x k.
Proof.
  unfold to_bytes_big. rewrite seq_S, rev_app_distr. reflexivity.
Qed.

Lemma to_bytes_big_length x k : length (to_bytes_big x k) = k.
Proof.
  unfold to_bytes_big. now rewrite length_map, length_rev, length_seq.
Qed.

Lemma decode_to_bytes_big x k acc :
  fold_left (fun a b => a * 256 + byte_to_Z b) (to_bytes_big x k) acc =
  acc * 2 ^ (8 * Z.of_nat k) + x mod 2 ^ (8 * Z.of_nat k).
Proof.
  revert acc. induction k as [|k IH]; intros acc.
  - cbn. rewrite Z.mod_1_r. lia.
  - rewrite to_bytes_big_S. cbn [fold_left]. rewrite IH, byte_to_Z_of_Z.
    rewrite Z.shiftr_div_pow2 by lia.
    replace (8 * Z.of_nat (S k)) with (8 * Z.of_nat k + 8) by lia.
    rewrite Z.pow_add_r by lia. change (2 ^ 8) with 256.
    assert (Hp : 0 < 2 ^ (8 * Z.of_nat k)) by (apply Z.pow_pos_nonneg; lia).
    rewrite (Z.rem_mul_r x (2 ^ (8 * Z.of_nat k)) 256) by lia.
    ring.
Qed.

Lemma bit_length_ceil8 x :
  (bit_length x <= 8 * Nat.div (bit_length x + 7) 8 < bit_length x + 8)%nat.
Proof.
  pose proof (Nat.div_mod_eq (bit_length x + 7) 8) as H.
  pose proof (Nat.mod_upper_bound (bit_length x + 7) 8 ltac:(lia)). lia.
Qed.

Lemma squeezed_length x :
  length (integer_to_bytes_squeezed x) = Nat.div (bit_length x + 7) 8.
Proof. apply to_bytes_big_length. Qed.

(** The squeezed bytes of a non-negative integer stand for that integer. *)
Lemma squeezed_decodes x :
  0 <= x -> bytes_to_integer (integer_to_bytes_squeezed x) = x.
Proof.
  intros Hx. unfold bytes_to_integer, integer_to_bytes_squeezed.
  rewrite decode_to_bytes_big, Z.mul_0_l, Z.add_0_l.
  apply Z.mod_small. split; [exact Hx|].
  destruct (Z.eq_dec x 0) as [->|Hnz].
  - reflexivity.
  - destruct (bit_length_bounds x ltac:(lia)) as [_ Hlt].
    eapply Z.lt_le_trans; [exact Hlt|].
    apply Z.pow_le_mono_r; [lia|].
    pose proof (bit_length_ceil8 x). lia.
Qed.

(** They never start with a zero byte. *)
Lemma squeezed_no_leading_zero x :
  0 <= x -> hd_error (integer_to_bytes_squeezed x) <> Some x00.
Proof.
  intros Hx. unfold integer_to_bytes_squeezed.
  pose proof (bit_length_ceil8 x) as Hc.
  destruct (Nat.div (bit_length x + 7) 8) as [|k] eqn:Ek; [discriminate|].
  rewrite to_bytes_big_S. cbn [hd_error]. intros Hhd.
  assert (Heq : Z.shiftr x (8 * Z.of_nat k) mod 256 = 0).
  { rewrite <- byte_to_Z_of_Z.
    replace (byte_of_Z (Z.shiftr x (8 * Z.of_nat k))) with x00 by congruence.
    reflexivity. }
  clear Hhd.
  assert (Hx1 : 1 <= x).
  { destruct (Z.eq_dec x 0) as [Hz|]; [|lia].
    rewrite Hz in Hc. change (bit_length 0) with O in Hc. lia. }
  destruct (bit_length_bounds x Hx1) as [Hge Hlt].
  rewrite Z.shiftr_div_pow2 in Heq by lia.
  assert (Hp : 0 < 2 ^ (8 * Z.of_nat k)) by (apply Z.pow_pos_nonneg; lia).
  assert (Hlo : 2 ^ (8 * Z.of_nat k) <= x).
  { assert (2 * 2 ^ (8 * Z.of_nat k) <= 2 ^ Z.of_nat (bit_length x)); [|lia].
    rewrite <- Z.pow_succ_r by lia.
    apply Z.pow_le_mono_r; lia. }
  assert (Hhi : x < 2 ^ (8 * Z.of_nat k) * 256).
  { eapply Z.lt_le_trans; [exact Hlt|].
    change 256 with (2 ^ 8). rewrite <- Z.pow_add_r by lia.
    apply Z.pow_le_mono_r; lia. }
  assert (1 <= x / 2 ^ (8 * Z.of_nat k) < 256).
  { split.
    - apply Z.div_le_lower_bound; lia.
    - apply Z.div_lt_upper_bound; lia. }
  rewrite Z.mod_small in Heq by lia. lia.
Qed.

(** ** The value returned *)

Lemma scaled_floor_bounds z (q : Qc) :
  0 <= z -> (0 <= q)%Qc -> (q <= 1)%Qc ->
  0 <= Qfloor (Fraction z * q)%Qc <= z.
Proof.
  intros Hz H0 H1.
  assert (Hz' : (0 <= inject_Z z)%Q).
  { change 0%Q with (inject_Z 0). now rewrite <- Zle_Qle. }
  assert (Hlo : (0 <= (Fraction z * q)%Qc)%Q) by (to_Q; nra).
  assert (Hhi : ((Fraction z * q)%Qc <= inject_Z z)%Q) by (to_Q; nra).
  split.
  - change 0 with (Qfloor 0). now apply Qfloor_resp_le.
  - rewrite <- (Qfloor_Z z) at 2. now apply Qfloor_resp_le.
Qed.

Lemma last_snoc {A} (l : list A) (x d : A) : last (l ++ [x]) d = x.
Proof.
  induction l as [|y l IH]; [reflexivity|].
  cbn [app last]. destruct (l ++ [x]) eqn:E; [|exact IH].
  destruct l; discriminate.
Qed.

Lemma floor_high_rounds oracle c k :
  floor (high (bounds (rounds oracle c k))) =
  Qfloor (Fraction (n (rsa oracle)) *
          high_frac (bounds (rounds oracle c k)))%Qc.
Proof.
  rewrite floor_value, bounds_rounds.
  destruct (in_sync_bisect (n (rsa oracle)) (answers oracle c k)
              _ (in_sync_initial (n (rsa oracle)))) as [_ Hhi].
  now rewrite Hhi.
Qed.

Lemma floor_high_bounds oracle c k :
  0 <= n (rsa oracle) ->
  0 <= floor (high (bounds (rounds oracle c k))) <= n (rsa oracle).
Proof.
  intros Hn. rewrite floor_high_rounds, bounds_rounds.
  destruct (well_formed_bisect (n (rsa oracle)) (answers oracle c k)
              _ (well_formed_initial (n (rsa oracle)))) as (H0 & Hle & H1).
  apply scaled_floor_bounds; [lia| |exact H1].
  eapply Qcle_trans; eassumption.
Qed.

(** C8. For a modulus [n >= 1], [decrypt_attack] returns the squeezed bytes
    of [floor(n * high_frac)] taken on the bounds the loop ends with, and
    that is the candidate printed last.  The integer lies in [0, n]; its
    bytes, modelled from the spec, stand for it big-endian, on
    [ceil(bit_length / 8)] bytes and without a leading zero byte. *)
Theorem returns_final_candidate :
  forall oracle c,
    let n := n (rsa oracle) in
    1 <= n ->
    let x := Qfloor (Fraction n * high_frac (bounds (final oracle c)))%Qc in
    decrypt_attack oracle c = Return (integer_to_bytes_squeezed x) /\
    last (printed (trace (final oracle c))) [] = integer_to_bytes_squeezed x /\
    0 <= x <= n /\
    bytes_to_integer (integer_to_bytes_squeezed x) = x /\
    length (integer_to_bytes_squeezed x) = Nat.div (bit_length x + 7) 8 /\
    hd_error (integer_to_bytes_squeezed x) <> Some x00.
Proof.
  intros oracle c n0 Hn x.
  assert (Hfloor : floor (high (bounds (final oracle c))) = x)
    by apply floor_high_rounds.
  assert (Hx : 0 <= x <= n0).
  { rewrite <- Hfloor. apply floor_high_bounds. fold n0. lia. }
  pose proof (bit_length_pos n0 Hn) as Hk.
  clearbody x. subst x.
  unfold decrypt_attack, final, num_repetitions in *. fold n0 in Hk, Hx |- *.
  destruct (bit_length n0) as [|k]; [lia|].
  rewrite msg_rounds_S, printed_rounds_S, last_snoc.
  repeat split; try lia.
  - apply squeezed_decodes; lia.
  - apply squeezed_length.
  - apply squeezed_no_leading_zero; lia.
Qed.

Lemma returns_final_candidate_witness :
  decrypt_attack (mkOracle (textbook_rsa 15 3 3)) 13 =
  Return
    (integer_to_bytes_squeezed
       (Qfloor (Fraction 15 *
                high_frac (bounds (final (mkOracle (textbook_rsa 15 3 3)) 13)))%Qc)).
Proof.
  apply (returns_final_candidate (mkOracle (textbook_rsa 15 3 3)) 13).
  cbn. lia.
Defined.

(** C10. [decrypt_attack] raises, at [return msg], exactly when the loop
    makes no pass, which is exactly when [n = 0]: then nothing is asked or
    printed and [msg] is unbound.  For every modulus [n >= 1] the loop makes
    at least one pass and a value is returned; the integer handed to the
    byte conversion is not negative. *)
Theorem result_defined :
  forall oracle c,
    let n := n (rsa oracle) in
    (decrypt_attack oracle c = Raise UnboundLocalError <->
     num_repetitions oracle = O) /\
    (num_repetitions oracle = O <-> n = 0) /\
    (n = 0 ->
     trace (final oracle c) = [] /\ msg (final oracle c) = None /\
     decrypt_attack oracle c = Raise UnboundLocalError) /\
    (1 <= n ->
     (1 <= num_repetitions oracle)%nat /\
     0 <= floor (high (bounds (final oracle c))) /\
     exists m, decrypt_attack oracle c = Return m).
Proof.
  intros oracle c n0.
  assert (Hraise : decrypt_attack oracle c = Raise UnboundLocalError <->
                   num_repetitions oracle = O).
  { unfold decrypt_attack, final.
    destruct (num_repetitions oracle) as [|k].
    - split; reflexivity.
    - rewrite msg_rounds_S. split; discriminate. }
  assert (Hzero : num_repetitions oracle = O <-> n0 = 0)
    by apply bit_length_0.
  repeat split; try tauto.
  - apply Hzero in H. unfold final. now rewrite H.
  - apply Hzero in H. unfold final. now rewrite H.
  - now apply bit_length_pos.
  - apply floor_high_bounds. fold n0. lia.
  - destruct (decrypt_attack oracle c) as [m|e] eqn:E; [now exists m|].
    destruct e, Hraise as [Hr _]. specialize (Hr eq_refl).
    apply Hzero in Hr. lia.
Qed.

(** ** Against a truthful oracle *)

(** A textbook key whose exponents undo each other on 2 doubles
    homomorphically. *)
Lemma textbook_homomorphic N e d :
  0 < N -> 0 <= e -> 0 <= d -> (2 ^ (e * d)) mod N = 2 mod N ->
  homomorphic (textbook_rsa N e d).
Proof.
  intros Hn He Hd Hed c. cbn [textbook_rsa n encrypt decrypt].
  rewrite <- Zpower_mod by lia.
  rewrite Z.pow_mul_l, Zmult_mod.
  rewrite <- (Zpower_mod (2 ^ e)) by lia.
  rewrite <- Z.pow_mul_r by lia.
  rewrite Hed, Zmult_mod_idemp_r. f_equal. ring.
Qed.

Lemma replies_app t u : replies (t ++ u) = replies t ++ replies u.
Proof. apply flat_map_app. Qed.

Lemma replies_rounds oracle c k :
  replies (trace (rounds oracle c k)) = answers oracle c k.
Proof.
  induction k as [|k IH]; [reflexivity|].
  rewrite trace_rounds_S, replies_app, IH, answers_S. reflexivity.
Qed.

Lemma doubled_plain_S n m k :
  doubled_plain n m (S k) = (2 * doubled_plain n m k) mod n.
Proof.
  unfold doubled_plain. rewrite Zmult_mod_idemp_r.
  rewrite Nat2Z.inj_succ, Z.pow_succ_r by lia. f_equal. ring.
Qed.

Section Truthful.

Variable oracle : Oracle.
Variables c m : Z.

Local Abbreviation N := (n (rsa oracle)).

Hypothesis Hhom : homomorphic (rsa oracle).
Hypothesis Hdec : decrypt (rsa oracle) c = m.

(** What the private key makes of the ciphertext of round [i]. *)
Lemma decrypt_doubled i :
  decrypt (rsa oracle) (doubled oracle c (S i)) = doubled_plain N m (S i).
Proof.
  induction i as [|i IH].
  - cbn [doubled]. rewrite Hhom, Hdec. unfold doubled_plain.
    f_equal.
  - change (doubled oracle c (S (S i)))
      with ((doubled oracle c (S i) * encrypt (rsa oracle) 2) mod N).
    rewrite Hhom, IH. symmetry. apply doubled_plain_S.
Qed.

Lemma answer_truthful i :
  answer oracle c i = Z.even (doubled_plain N m (S i)).
Proof.
  unfold answer, validate_msg, truthy.
  rewrite decrypt_doubled, land_1_parity.
  now destruct (Z.even (doubled_plain N m (S i))).
Qed.

Hypothesis Hodd : Z.odd N = true.
Hypothesis Hm : 0 <= m < N.

Lemma doubled_plain_range k : 0 <= doubled_plain N m k < N.
Proof. apply Z.mod_pos_bound. lia. Qed.

(** With an odd modulus the parity tells whether the doubling wrapped. *)
Lemma doubled_plain_cases k :
  let r := doubled_plain N m k in
  (2 * r < N /\ doubled_plain N m (S k) = 2 * r /\
   answer oracle c k = true) \/
  (N <= 2 * r /\ doubled_plain N m (S k) = 2 * r - N /\
   answer oracle c k = false).
Proof.
  intros r. pose proof (doubled_plain_range k) as Hr. fold r in Hr.
  rewrite answer_truthful, doubled_plain_S. fold r.
  destruct (Z_lt_le_dec (2 * r) N) as [Hlt|Hge].
  - left. rewrite Z.mod_small by lia.
    repeat split; [exact Hlt|]. now rewrite Z.even_mul.
  - right.
    assert (E : (2 * r) mod N = 2 * r - N).
    { symmetry. apply (Z.mod_unique _ _ 1); lia. }
    rewrite E. repeat split; [exact Hge|].
    rewrite Z.even_sub, Z.even_mul, <- (Z.negb_odd N), Hodd. reflexivity.
Qed.

(** The interval after [k] rounds has width [1/2^k] and its lower end lies
    [r/2^k] below [m], where [r] is the plaintext doubled [k] times: the
    lower bound is [m/n] cut after [k] binary digits. *)
Lemma bisection_tracks_plaintext k :
  let b := bounds (rounds oracle c k) in
  let P := inject_Z (2 ^ Z.of_nat k) in
  ((high_frac b - low_frac b) * P == 1)%Q /\
  ((inject_Z m - inject_Z N * low_frac b) * P ==
   inject_Z (doubled_plain N m k))%Q.
Proof.
  induction k as [|k IH].
  - cbn. unfold doubled_plain. rewrite Z.pow_0_r, Z.mul_1_l.
    rewrite Z.mod_small by lia. split; ring.
  - cbv zeta in IH |- *. destruct IH as [Hw Hl].
    rewrite bounds_rounds_S.
    rewrite Nat2Z.inj_succ, Z.pow_succ_r, inject_Z_mult by lia.
    change (inject_Z 2) with 2%Q.
    set (P := inject_Z (2 ^ Z.of_nat k)) in *.
    set (b := bounds (rounds oracle c k)) in *.
    destruct (doubled_plain_cases k) as [(_ & -> & ->)|(_ & -> & ->)];
      cbn [halve low_frac high_frac].
    + rewrite inject_Z_mult. change (inject_Z 2) with 2%Q.
      set (R := inject_Z (doubled_plain N m k)) in *.
      to_Q. split; nra.
    + unfold Z.sub. rewrite inject_Z_plus, inject_Z_opp, inject_Z_mult.
      change (inject_Z 2) with 2%Q.
      set (R := inject_Z (doubled_plain N m k)) in *.
      to_Q.
      set (lo := this (low_frac b)) in *. set (hi := this (high_frac b)) in *.
      set (M := inject_Z m) in *. set (NN := inject_Z N) in *.
      split; [nra|].
      setoid_replace ((M - NN * ((hi + - lo) * (1 # 2) + lo)) * (2 * P))%Q
        with (2 * ((M - NN * lo) * P) - NN * ((hi - lo) * P))%Q by ring.
      rewrite Hw, Hl. ring.
Qed.

Lemma final_floor_is_plaintext :
  Qfloor (Fraction N * high_frac (bounds (final oracle c)))%Qc = m.
Proof.
  unfold final, num_repetitions. fold N.
  destruct (bisection_tracks_plaintext (bit_length N)) as [Hw Hl].
  cbv zeta in Hw, Hl.
  pose proof (doubled_plain_range (bit_length N)) as Hr.
  destruct (bit_length_bounds N ltac:(lia)) as [_ Hlt].
  set (b := bounds (rounds oracle c (bit_length N))) in *.
  assert (HR : (0 <= inject_Z (doubled_plain N m (bit_length N)))%Q)
    by (change 0%Q with (inject_Z 0); rewrite <- Zle_Qle; lia).
  assert (HRN : (inject_Z (doubled_plain N m (bit_length N)) < inject_Z N)%Q)
    by (rewrite <- Zlt_Qlt; lia).
  assert (HNP : (inject_Z N < inject_Z (2 ^ Z.of_nat (bit_length N)))%Q)
    by (rewrite <- Zlt_Qlt; lia).
  set (R := inject_Z (doubled_plain N m (bit_length N))) in *.
  set (P := inject_Z (2 ^ Z.of_nat (bit_length N))) in *.
  set (q := (Fraction N * high_frac b)%Qc).
  assert (Hq : (inject_Z m < q /\ q < inject_Z m + 1)%Q).
  { subst q. to_Q.
    set (lo := this (low_frac b)) in *. set (hi := this (high_frac b)) in *.
    set (M := inject_Z m) in *. set (NN := inject_Z N) in *.
    assert (E : ((NN * hi - M) * P == NN - R)%Q).
    { setoid_replace ((NN * hi - M) * P)%Q
        with (NN * ((hi - lo) * P) - (M - NN * lo) * P)%Q by ring.
      rewrite Hw, Hl. ring. }
    assert (0 < P)%Q by lra.
    split; nra. }
  destruct Hq as [Hq1 Hq2].
  apply Z.le_antisymm.
  - assert (Hlt' : (inject_Z (Qfloor q) < inject_Z (m + 1))%Q).
    { rewrite inject_Z_plus. eapply Qle_lt_trans; [apply Qfloor_le|].
      exact Hq2. }
    rewrite <- Zlt_Qlt in Hlt'. lia.
  - rewrite <- (Qfloor_Z m) at 1. apply Qfloor_resp_le, Qlt_le_weak, Hq1.
Qed.

End Truthful.

(** C5, with the polarity of the code.  When the key doubles
    homomorphically and the target ciphertext decrypts to [m], the oracle's
    answer in round [i] is the negation of the parity bit of
    [(2^(i+1) * m) mod n]: it is [True] exactly when that bit is 0 (the
    number is even), as the docstring of [validate_msg] says.  The answers
    logged over the [bit_length n] rounds of the attack are these, in
    order. *)
Theorem parity_consistency :
  forall oracle c m,
    homomorphic (rsa oracle) ->
    decrypt (rsa oracle) c = m ->
    let n := n (rsa oracle) in
    let parity_bit i := Z.testbit ((2 ^ Z.of_nat (i + 1) * m) mod n) 0 in
    (forall i,
        answer oracle c i = negb (parity_bit i) /\
        answer oracle c i = Z.even ((2 ^ Z.of_nat (i + 1) * m) mod n)) /\
    replies (trace (final oracle c)) =
      map (fun i => negb (parity_bit i)) (seq 0 (bit_length n)).
Proof.
  intros oracle c m Hhom Hdec n0 parity_bit.
  assert (Hans : forall i, answer oracle c i = negb (parity_bit i)).
  { intros i. rewrite (answer_truthful oracle c m Hhom Hdec).
    unfold parity_bit, doubled_plain. fold n0.
    rewrite Z.bit0_odd, Z.negb_odd. now rewrite Nat.add_1_r. }
  split.
  - intros i. split; [apply Hans|].
    rewrite Hans. unfold parity_bit. now rewrite Z.bit0_odd, Z.negb_odd.
  - unfold final. rewrite replies_rounds. unfold answers, num_repetitions.
    fold n0. apply map_ext. exact Hans.
Qed.

Lemma odd_key_homomorphic : homomorphic (rsa odd_key).
Proof. apply textbook_homomorphic; [lia|lia|lia|reflexivity]. Defined.

Lemma even_key_homomorphic : homomorphic (rsa even_key).
Proof. apply textbook_homomorphic; [lia|lia|lia|reflexivity]. Defined.

Lemma parity_consistency_witness :
  replies (trace (final odd_key 13)) =
  map (fun i => negb (Z.testbit ((2 ^ Z.of_nat (i + 1) * 7) mod 15) 0))
      (seq 0 (bit_length 15)).
Proof.
  apply (parity_consistency odd_key 13 7).
  - exact odd_key_homomorphic.
  - reflexivity.
Defined.

(** C5 does not hold with the answer equal to the parity bit itself.  With
    the key [n = 15, e = d = 3] and the plaintext 7, whose ciphertext is 13,
    the doubled plaintexts are 14, 13, 11 and 7, with parity bits 0, 1, 1
    and 1, and the oracle answers [True], [False], [False], [False]: in
    every round the answer is the opposite of the bit. *)
Lemma answer_is_not_the_parity_bit :
  homomorphic (rsa odd_key) /\
  decrypt (rsa odd_key) 13 = 7 /\
  replies (trace (final odd_key 13)) = [true; false; false; false] /\
  map (fun i => Z.testbit ((2 ^ Z.of_nat (i + 1) * 7) mod n (rsa odd_key)) 0)
      (seq 0 (bit_length (n (rsa odd_key)))) = [false; true; true; true] /\
  answer odd_key 13 0 <>
    Z.testbit ((2 ^ Z.of_nat (0 + 1) * 7) mod n (rsa odd_key)) 0 /\
  (forall i,
      answer odd_key 13 i <>
      Z.testbit ((2 ^ Z.of_nat (i + 1) * 7) mod n (rsa odd_key)) 0).
Proof.
  assert (Hall : forall i,
             answer odd_key 13 i <>
             Z.testbit ((2 ^ Z.of_nat (i + 1) * 7) mod n (rsa odd_key)) 0).
  { intros i.
    rewrite (answer_truthful odd_key 13 7 odd_key_homomorphic eq_refl).
    unfold doubled_plain. rewrite Nat.add_1_r, Z.bit0_odd, <- Z.negb_odd.
    destruct (Z.odd _); discriminate. }
  split; [exact odd_key_homomorphic|].
  split; [reflexivity|].
  split; [vm_compute; reflexivity|].
  split; [vm_compute; reflexivity|].
  split; [apply Hall|exact Hall].
Qed.

(** C1, for an odd modulus. For an odd modulus [n], a plaintext [m] in [[0, n)], a
    key that doubles homomorphically and a target ciphertext that decrypts
    to [m], the [bit_length n] rounds against the oracle end with
    [floor(n * high_frac) = m] exactly: [math.floor(high)] is [m], and
    [decrypt_attack] returns the squeezed bytes of [m]. *)
Theorem convergence_odd_modulus :
  forall oracle c m,
    let n := n (rsa oracle) in
    Z.odd n = true ->
    0 <= m < n ->
    homomorphic (rsa oracle) ->
    decrypt (rsa oracle) c = m ->
    Qfloor (Fraction n * high_frac (bounds (final oracle c)))%Qc = m /\
    floor (high (bounds (final oracle c))) = m /\
    decrypt_attack oracle c = Return (integer_to_bytes_squeezed m).
Proof.
  intros oracle c m n0 Hodd Hm Hhom Hdec.
  pose proof (final_floor_is_plaintext oracle c m Hhom Hdec Hodd Hm) as Hfl.
  assert (Hhigh : floor (high (bounds (final oracle c))) = m).
  { unfold final. rewrite floor_high_rounds. exact Hfl. }
  repeat split; [exact Hfl|exact Hhigh|].
  unfold decrypt_attack. rewrite <- Hhigh. unfold final, num_repetitions.
  pose proof (bit_length_pos n0 ltac:(lia)) as Hk. fold n0.
  destruct (bit_length n0) as [|k]; [lia|].
  now rewrite msg_rounds_S.
Qed.

Lemma convergence_odd_modulus_witness :
  Qfloor (Fraction 15 * high_frac (bounds (final odd_key 13)))%Qc = 7 /\
  floor (high (bounds (final odd_key 13))) = 7 /\
  decrypt_attack odd_key 13 = Return (integer_to_bytes_squeezed 7).
Proof.
  apply (convergence_odd_modulus odd_key 13 7).
  - reflexivity.
  - cbn. lia.
  - exact odd_key_homomorphic.
  - reflexivity.
Defined.

(** C1 does not extend to an even modulus.  With the textbook key
    [n = 2 * 5, e = d = 3] and the plaintext [m = 3], whose ciphertext is 7,
    the key doubles homomorphically and the oracle answers truthfully, yet
    every doubled plaintext is even, every answer is [True], and after the
    [bit_length 10 = 4] rounds [floor(n * high_frac)] is [floor(10/16) = 0],
    not 3. *)
Lemma convergence_fails_even_modulus :
  0 <= 3 < n (rsa even_key) /\
  encrypt (rsa even_key) 3 = 7 /\
  decrypt (rsa even_key) 7 = 3 /\
  homomorphic (rsa even_key) /\
  (forall i, answer even_key 7 i =
             Z.even ((2 ^ Z.of_nat (i + 1) * 3) mod n (rsa even_key))) /\
  num_repetitions even_key = 4%nat /\
  replies (trace (final even_key 7)) = [true; true; true; true] /\
  Qfloor (Fraction (n (rsa even_key)) *
          high_frac (bounds (final even_key 7)))%Qc = 0 /\
  Qfloor (Fraction (n (rsa even_key)) *
          high_frac (bounds (final even_key 7)))%Qc <> 3 /\
  decrypt_attack even_key 7 = Return [].
Proof.
  split; [cbn; lia|].
  split; [reflexivity|].
  split; [reflexivity|].
  split; [exact even_key_homomorphic|].
  split.
  { intros i.
    rewrite (answer_truthful even_key 7 3 even_key_homomorphic eq_refl).
    unfold doubled_plain. now rewrite Nat.add_1_r. }
  split; [reflexivity|].
  split; [vm_compute; reflexivity|].
  split; [vm_compute; reflexivity|].
  split; [vm_compute; discriminate|].
  vm_compute; reflexivity.
Qed.

(** * Further properties of the attack loop *)

(** ** The bounds in closed form *)

Lemma digits_snoc l (r : bool) :
  digits (l ++ [r]) = 2 * digits l + (if r then 0 else 1).
Proof. unfold digits. now rewrite fold_left_app. Qed.

Lemma digits_range l : 0 <= digits l < 2 ^ Z.of_nat (length l).
Proof.
  induction l as [|r l IH] using rev_ind; [cbn; lia|].
  rewrite digits_snoc, length_app, Nat.add_1_r, Nat2Z.inj_succ.
  rewrite Z.pow_succ_r by lia. destruct r; lia.
Qed.

Lemma pow2_Q_pos k : (0 < inject_Z (2 ^ Z.of_nat k))%Q.
Proof.
  change 0%Q with (inject_Z 0). rewrite <- Zlt_Qlt.
  apply Z.pow_pos_nonneg; lia.
Qed.

(** After the answers [l] the lower bound is [digits l / 2^k] and the upper
    bound one step of [1/2^k] above it, [k] being the number of answers. *)
Lemma bisect_digits_Q n0 l :
  let b := bisect n0 l (initial n0) in
  let P := inject_Z (2 ^ Z.of_nat (length l)) in
  (low_frac b * P == inject_Z (digits l))%Q /\
  (high_frac b * P == inject_Z (digits l) + 1)%Q.
Proof.
  induction l as [|r l IH] using rev_ind.
  - cbn. split; reflexivity.
  - cbv zeta in IH |- *. destruct IH as [Hlo Hhi].
    rewrite bisect_app, digits_snoc, length_app, Nat.add_1_r, Nat2Z.inj_succ.
    rewrite Z.pow_succ_r, inject_Z_plus, !inject_Z_mult by lia.
    change (inject_Z 2) with 2%Q.
    set (P := inject_Z (2 ^ Z.of_nat (length l))) in *.
    set (D := inject_Z (digits l)) in *.
    set (b := bisect n0 l (initial n0)) in *.
    cbn [bisect fold_left].
    destruct r; cbn [halve low_frac high_frac];
      [change (inject_Z 0) with 0%Q | change (inject_Z 1) with 1%Q];
      to_Q; split; nra.
Qed.

Lemma inject_Z_nonzero p : 0 < p -> ~ (inject_Z p == 0)%Q.
Proof.
  intros Hp H0. apply (proj1 (inject_Z_injective p 0)) in H0. lia.
Qed.

Lemma Qc_quotient (q : Qc) (a p : Z) :
  0 < p -> (q * inject_Z p == inject_Z a)%Q ->
  q = (Fraction a / Fraction p)%Qc.
Proof.
  intros Hp H. to_Q. rewrite <- H. field.
  now apply inject_Z_nonzero.
Qed.

(** Every Qfloor of [z * (a/p)] is an integer division. *)
Lemma Qfloor_scaled z a p :
  0 < p ->
  Qfloor (Fraction z * (Fraction a / Fraction p))%Qc = (z * a) / p.
Proof.
  intros Hp. rewrite Zdiv_Qdiv. apply Qfloor_comp.
  to_Q. rewrite inject_Z_mult. field.
  now apply inject_Z_nonzero.
Qed.

Lemma answers_length oracle c k : length (answers oracle c k) = k.
Proof. unfold answers. now rewrite length_map, length_seq. Qed.

Lemma bisect_quotients n0 l :
  let b := bisect n0 l (initial n0) in
  low_frac b =
    (Fraction (digits l) / Fraction (2 ^ Z.of_nat (length l)))%Qc /\
  high_frac b =
    (Fraction (digits l + 1) / Fraction (2 ^ Z.of_nat (length l)))%Qc.
Proof.
  destruct (bisect_digits_Q n0 l) as [Hlo Hhi].
  assert (Hp : 0 < 2 ^ Z.of_nat (length l)) by (apply Z.pow_pos_nonneg; lia).
  split; apply Qc_quotient; try assumption.
  rewrite inject_Z_plus. exact Hhi.
Qed.

(** X1. The bounds in closed form.  After [k] answers, whatever they are,
    [low_frac] is [d / 2^k] and [high_frac] is [(d + 1) / 2^k], where [d] is
    the integer whose [k] binary digits are the answers, first answer
    heaviest, [False] read as 1 and [True] as 0: the interval is one of the
    [2^k] cells of width [1/2^k], and the answers are the binary digits of
    its lower end. *)
Theorem bounds_closed_form :
  (forall n (l : list bool),
      let b := bisect n l (initial n) in
      let k := Z.of_nat (length l) in
      low_frac b = (Fraction (digits l) / Fraction (2 ^ k))%Qc /\
      high_frac b = (Fraction (digits l + 1) / Fraction (2 ^ k))%Qc /\
      (high_frac b - low_frac b = 1 / Fraction (2 ^ k))%Qc /\
      0 <= digits l < 2 ^ k) /\
  (forall oracle c k,
      let b := bounds (rounds oracle c k) in
      let d := digits (replies (trace (rounds oracle c k))) in
      low_frac b = (Fraction d / Fraction (2 ^ Z.of_nat k))%Qc /\
      high_frac b = (Fraction (d + 1) / Fraction (2 ^ Z.of_nat k))%Qc).
Proof.
  split.
  - intros n0 l b k. destruct (bisect_quotients n0 l) as [Hlo Hhi].
    fold b k in Hlo, Hhi. repeat split; try apply digits_range; auto.
    rewrite Hlo, Hhi.
    assert (Hp : 0 < 2 ^ k) by (apply Z.pow_pos_nonneg; lia).
    to_Q. rewrite inject_Z_plus. field. now apply inject_Z_nonzero.
  - intros oracle c k. cbv zeta.
    rewrite replies_rounds, bounds_rounds.
    destruct (bisect_quotients (n (rsa oracle)) (answers oracle c k))
      as [Hlo Hhi].
    rewrite answers_length in Hlo, Hhi. now split.
Qed.

Lemma floor_high_digits oracle c k :
  floor (high (bounds (rounds oracle c k))) =
  (n (rsa oracle) * (digits (answers oracle c k) + 1)) / 2 ^ Z.of_nat k.
Proof.
  rewrite floor_high_rounds, bounds_rounds.
  destruct (bisect_quotients (n (rsa oracle)) (answers oracle c k))
    as [_ Hhi].
  rewrite Hhi, answers_length. apply Qfloor_scaled.
  apply Z.pow_pos_nonneg; lia.
Qed.

Lemma attack_digits oracle c :
  n (rsa oracle) <> 0 ->
  decrypt_attack oracle c =
    Return (integer_to_bytes_squeezed
              ((n (rsa oracle) *
                (digits (answers oracle c (bit_length (n (rsa oracle)))) + 1))
                 / 2 ^ Z.of_nat (bit_length (n (rsa oracle))))).
Proof.
  intros Hn. unfold decrypt_attack, final, num_repetitions.
  destruct (bit_length (n (rsa oracle))) as [|k] eqn:E.
  - apply bit_length_0 in E. contradiction.
  - rewrite msg_rounds_S, floor_high_digits. reflexivity.
Qed.

(** X2. The candidates in closed form.  The integer printed in round [k]
    (and [floor(high)] before the first round) is the integer quotient
    [n * (d + 1) // 2^k] of the answers so far read as the binary number [d];
    for [n <> 0] the value returned is the squeezed form of that quotient
    over all [bit_length n] logged answers.  The ciphertext and the key
    enter the result through the answers only. *)
Theorem result_from_answers :
  forall oracle c,
    let n := n (rsa oracle) in
    (forall k,
        floor (high (bounds (rounds oracle c k))) =
        (n * (digits (replies (trace (rounds oracle c k))) + 1))
          / 2 ^ Z.of_nat k) /\
    (n <> 0 ->
     decrypt_attack oracle c =
       Return (integer_to_bytes_squeezed
                 ((n * (digits (replies (trace (final oracle c))) + 1))
                    / 2 ^ Z.of_nat (bit_length n)))).
Proof.
  intros oracle c n0. split.
  - intros k. rewrite replies_rounds. apply floor_high_digits.
  - intros Hn. unfold decrypt_attack, final, num_repetitions. fold n0.
    destruct (bit_length n0) as [|k] eqn:E.
    + apply bit_length_0 in E. contradiction.
    + rewrite msg_rounds_S, replies_rounds, floor_high_digits. reflexivity.
Qed.

Lemma result_from_answers_witness :
  decrypt_attack odd_key 13 =
  Return (integer_to_bytes_squeezed
            ((15 * (digits (replies (trace (final odd_key 13))) + 1))
               / 2 ^ Z.of_nat (bit_length 15))).
Proof.
  apply (proj2 (result_from_answers odd_key 13)). cbn. lia.
Defined.

(** ** Precision and monotonicity of the candidates *)

(** X3. Single-integer precision, for any oracle.  For a modulus [n >= 1]
    the interval left after the [bit_length n] rounds is narrower than [1/n]:
    [floor(n * low_frac)] and [floor(n * high_frac)] are equal or adjacent,
    whatever was answered. *)
Theorem final_interval_unit :
  forall oracle c,
    let n := n (rsa oracle) in
    1 <= n ->
    let b := bounds (final oracle c) in
    let lo := Qfloor (Fraction n * low_frac b)%Qc in
    let hi := Qfloor (Fraction n * high_frac b)%Qc in
    lo <= hi <= lo + 1.
Proof.
  intros oracle c n0 Hn b lo hi. subst lo hi b.
  unfold final, num_repetitions. fold n0. rewrite bounds_rounds. fold n0.
  set (l := answers oracle c (bit_length n0)).
  destruct (bisect_quotients n0 l) as [-> ->].
  assert (Hk : length l = bit_length n0) by apply answers_length.
  rewrite Hk.
  destruct (bit_length_bounds n0 Hn) as [_ Hlt].
  set (P := 2 ^ Z.of_nat (bit_length n0)) in *.
  assert (Hp : 0 < P) by (apply Z.pow_pos_nonneg; lia).
  rewrite !Qfloor_scaled by exact Hp.
  split.
  - apply Z.div_le_mono; lia.
  - rewrite <- (Z.div_add (n0 * digits l) 1 P) by lia.
    apply Z.div_le_mono; lia.
Qed.

Lemma final_interval_unit_witness :
  Qfloor (Fraction 15 * low_frac (bounds (final odd_key 13)))%Qc <=
  Qfloor (Fraction 15 * high_frac (bounds (final odd_key 13)))%Qc <=
  Qfloor (Fraction 15 * low_frac (bounds (final odd_key 13)))%Qc + 1.
Proof.
  apply (final_interval_unit odd_key 13). cbn. lia.
Defined.

Lemma Qc_scale_le z (p q : Qc) :
  0 <= z -> (p <= q)%Qc -> (Fraction z * p <= Fraction z * q)%Qc.
Proof.
  intros Hz Hpq.
  assert (Hz' : (0 <= inject_Z z)%Q).
  { change 0%Q with (inject_Z 0). now rewrite <- Zle_Qle. }
  to_Q. nra.
Qed.

(** X4. The printed candidates never go up.  For a modulus [n >= 0] and any
    oracle, [floor(high)] is [n] before the first round, never increases from
    one round to the next and never leaves [[0, n]]. *)
Theorem candidates_never_increase :
  forall oracle c k,
    let n := n (rsa oracle) in
    0 <= n ->
    floor (high (bounds (rounds oracle c 0))) = n /\
    0 <= floor (high (bounds (rounds oracle c (S k)))) /\
    floor (high (bounds (rounds oracle c (S k)))) <=
      floor (high (bounds (rounds oracle c k))) /\
    floor (high (bounds (rounds oracle c k))) <= n.
Proof.
  intros oracle c k n0 Hn.
  split; [reflexivity|].
  split; [apply floor_high_bounds; exact Hn|].
  split; [|apply floor_high_bounds; exact Hn].
  rewrite !floor_high_rounds. apply Qfloor_resp_le.
  apply (Qc_scale_le _ _ _ Hn).
  rewrite bounds_rounds_S, bounds_rounds.
  apply halve_monotone.
  apply (well_formed_bisect n0), well_formed_initial.
Qed.

Lemma candidates_never_increase_witness :
  floor (high (bounds (rounds odd_key 13 1))) <=
  floor (high (bounds (rounds odd_key 13 0))).
Proof.
  apply (candidates_never_increase odd_key 13 0). cbn. lia.
Defined.

(** ** What the oracle is asked, and what is printed *)

Lemma doubled_closed_form oracle c k :
  doubled oracle c (S k) =
  (c * encrypt (rsa oracle) 2 ^ Z.of_nat (S k)) mod n (rsa oracle).
Proof.
  induction k as [|k IH].
  - cbn [doubled]. now rewrite Z.pow_1_r.
  - change (doubled oracle c (S (S k)))
      with ((doubled oracle c (S k) * encrypt (rsa oracle) 2)
              mod n (rsa oracle)).
    rewrite IH, Zmult_mod_idemp_l.
    rewrite (Nat2Z.inj_succ (S k)), Z.pow_succ_r by lia.
    f_equal. ring.
Qed.

(** X5. The ciphertexts handed to the oracle.  The query of round [i] is
    [(c * encrypt(2)^(i+1)) mod n], the first one already the doubled
    target, and for [n >= 1] every query lies in [[0, n)], however large or
    negative the target [c] is. *)
Theorem queries_closed_form :
  forall oracle c,
    let n := n (rsa oracle) in
    let two := encrypt (rsa oracle) 2 in
    queried (trace (final oracle c)) =
      map (fun i => (c * two ^ Z.of_nat i) mod n) (seq 1 (bit_length n)) /\
    (1 <= n ->
     Forall (fun q => 0 <= q < n) (queried (trace (final oracle c)))).
Proof.
  intros oracle c n0 two.
  assert (Hq : queried (trace (final oracle c)) =
               map (fun i => (c * two ^ Z.of_nat i) mod n0)
                   (seq 1 (bit_length n0))).
  { unfold final, num_repetitions. rewrite queried_rounds. fold n0.
    apply map_ext_in. intros i Hi. apply in_seq in Hi.
    destruct i as [|i]; [lia|]. apply doubled_closed_form. }
  split; [exact Hq|].
  intros Hn. rewrite Hq. apply Forall_forall. intros q Hin.
  apply in_map_iff in Hin. destruct Hin as (i & <- & _).
  apply Z.mod_pos_bound. lia.
Qed.

(** The numbers of the printed lines. *)
Lemma trace_flat_map oracle c k :
  trace (rounds oracle c k) =
  flat_map
    (fun i =>
       [Query (doubled oracle c (S i)) (answer oracle c i);
        Print i (integer_to_bytes_squeezed
                   (floor (high (bounds (rounds oracle c (S i))))))])
    (seq 0 k).
Proof.
  induction k as [|k IH]; [reflexivity|].
  rewrite trace_rounds_S, IH, seq_S, flat_map_app. cbn [flat_map].
  now rewrite app_nil_r.
Qed.

(** The shape of the output.  The run is, for [i = 0, 1, ...,
    bit_length n - 1] in this order, one call of the oracle on the doubled
    ciphertext followed by the line [Iteration i] with the candidate of that
    round; nothing else is asked or printed. *)
Theorem trace_shape :
  forall oracle c,
    trace (final oracle c) =
    flat_map
      (fun i =>
         [Query (doubled oracle c (S i)) (answer oracle c i);
          Print i (integer_to_bytes_squeezed
                     (Qfloor (Fraction (n (rsa oracle)) *
                              high_frac (bounds (rounds oracle c (S i))))%Qc))])
      (seq 0 (bit_length (n (rsa oracle)))).
Proof.
  intros oracle c. unfold final, num_repetitions. rewrite trace_flat_map.
  apply flat_map_ext. intros i. now rewrite floor_high_rounds.
Qed.

(** ** More on the truthful oracle *)

(** X6. The docstring's heuristic.  With an odd modulus, a plaintext [m] in
    [[0, n)] and a key that doubles homomorphically, the oracle answers
    [True] in round [k] exactly when doubling the current plaintext
    [(2^k * m) mod n] does not wrap the modulus. *)
Theorem answer_iff_no_wrap :
  forall oracle c m k,
    let n := n (rsa oracle) in
    Z.odd n = true ->
    0 <= m < n ->
    homomorphic (rsa oracle) ->
    decrypt (rsa oracle) c = m ->
    answer oracle c k = (2 * ((2 ^ Z.of_nat k * m) mod n) <? n).
Proof.
  intros oracle c m k n0 Hodd Hm Hhom Hdec.
  destruct (doubled_plain_cases oracle c m Hhom Hdec Hodd Hm k)
    as [(Hlt & _ & ->)|(Hge & _ & ->)]; symmetry.
  - apply Z.ltb_lt. exact Hlt.
  - apply Z.ltb_ge. exact Hge.
Qed.

Lemma answer_iff_no_wrap_witness :
  answer odd_key 13 1 = (2 * ((2 ^ Z.of_nat 1 * 7) mod 15) <? 15).
Proof.
  apply (answer_iff_no_wrap odd_key 13 7 1).
  - reflexivity.
  - cbn. lia.
  - exact odd_key_homomorphic.
  - reflexivity.
Defined.

(** X7. The plaintext stays bracketed.  Under the same conditions, after any
    number of rounds [n * low_frac <= m < n * high_frac], so no printed
    candidate [floor(high)] is ever below [m]: the candidates come down to
    [m] from above. *)
Theorem plaintext_bracketed :
  forall oracle c m k,
    let n := n (rsa oracle) in
    Z.odd n = true ->
    0 <= m < n ->
    homomorphic (rsa oracle) ->
    decrypt (rsa oracle) c = m ->
    let b := bounds (rounds oracle c k) in
    (Fraction n * low_frac b <= Fraction m)%Qc /\
    (Fraction m < Fraction n * high_frac b)%Qc /\
    m <= floor (high b).
Proof.
  intros oracle c m k n0 Hodd Hm Hhom Hdec b.
  destruct (bisection_tracks_plaintext oracle c m Hhom Hdec Hodd Hm k)
    as [Hw Hl].
  cbv zeta in Hw, Hl. fold b n0 in Hw, Hl.
  pose proof (doubled_plain_range oracle m Hm k) as Hr. fold n0 in Hr.
  pose proof (pow2_Q_pos k) as Hp.
  assert (HR : (0 <= inject_Z (doubled_plain n0 m k))%Q)
    by (change 0%Q with (inject_Z 0); rewrite <- Zle_Qle; lia).
  assert (HRN : (inject_Z (doubled_plain n0 m k) < inject_Z n0)%Q)
    by (rewrite <- Zlt_Qlt; lia).
  set (R := inject_Z (doubled_plain n0 m k)) in *.
  set (P := inject_Z (2 ^ Z.of_nat k)) in *.
  assert (Hlo : (Fraction n0 * low_frac b <= Fraction m)%Qc).
  { to_Q. nra. }
  assert (Hhi : (Fraction m < Fraction n0 * high_frac b)%Qc).
  { to_Q.
    set (lo := this (low_frac b)) in *. set (hi := this (high_frac b)) in *.
    set (M := inject_Z m) in *. set (NN := inject_Z n0) in *.
    assert (E : ((NN * hi - M) * P == NN - R)%Q).
    { setoid_replace ((NN * hi - M) * P)%Q
        with (NN * ((hi - lo) * P) - (M - NN * lo) * P)%Q by ring.
      rewrite Hw, Hl. ring. }
    nra. }
  repeat split; [exact Hlo|exact Hhi|].
  subst b. rewrite floor_high_rounds. fold n0.
  rewrite <- (Qfloor_Z m) at 1. apply Qfloor_resp_le.
  apply Qlt_le_weak. unfold Qclt in Hhi.
  unfold Fraction in Hhi at 1. cbn [this Q2Qc] in Hhi.
  now rewrite Qred_correct in Hhi.
Qed.

Lemma plaintext_bracketed_witness :
  7 <= floor (high (bounds (rounds odd_key 13 2))).
Proof.
  apply (plaintext_bracketed odd_key 13 7 2).
  - reflexivity.
  - cbn. lia.
  - exact odd_key_homomorphic.
  - reflexivity.
Defined.

(** ** One-sided answers *)

Lemma digits_all_true l : Forall (fun r => r = true) l -> digits l = 0.
Proof.
  induction l as [|r l IH] using rev_ind; intros H; [reflexivity|].
  apply Forall_app in H. destruct H as [Hl Hr].
  rewrite digits_snoc, (IH Hl). inversion Hr; subst. reflexivity.
Qed.

Lemma digits_all_false l :
  Forall (fun r => r = false) l -> digits l = 2 ^ Z.of_nat (length l) - 1.
Proof.
  induction l as [|r l IH] using rev_ind; intros H; [reflexivity|].
  apply Forall_app in H. destruct H as [Hl Hr].
  rewrite digits_snoc, (IH Hl), length_app, Nat.add_1_r, Nat2Z.inj_succ.
  rewrite Z.pow_succ_r by lia. inversion Hr; subst. lia.
Qed.

Lemma answers_Forall oracle c k (P : bool -> Prop) :
  (forall i, P (answer oracle c i)) -> Forall P (answers oracle c k).
Proof.
  intros H. apply Forall_forall. intros r Hin.
  apply in_map_iff in Hin. destruct Hin as (i & <- & _). apply H.
Qed.

Lemma answers_all_false oracle c k :
  Forall (fun r => r = false) (answers oracle c k) ->
  high (bounds (rounds oracle c k)) = PyInt (n (rsa oracle)).
Proof.
  induction k as [|k IH]; intros Hall; [reflexivity|].
  rewrite answers_S in Hall. apply Forall_app in Hall.
  destruct Hall as [Hk Hlast]. inversion Hlast as [|r l' Hr _]; subst.
  rewrite bounds_rounds_S, Hr. cbn [halve high]. exact (IH Hk).
Qed.

(** X8. One-sided oracles.  For a modulus [n >= 1]: if every answer logged
    in the [bit_length n] rounds of the run is [True], the attack returns
    the bytes of 0, the empty string; if every one is [False], [high] is
    never reassigned and the attack returns the bytes of [n] itself.  What
    the oracle would say beyond those rounds does not matter. *)
Theorem one_sided_answers :
  forall oracle c,
    let n := n (rsa oracle) in
    1 <= n ->
    (Forall (fun r => r = true) (replies (trace (final oracle c))) ->
     decrypt_attack oracle c = Return []) /\
    (Forall (fun r => r = false) (replies (trace (final oracle c))) ->
     high (bounds (final oracle c)) = PyInt n /\
     decrypt_attack oracle c = Return (integer_to_bytes_squeezed n)).
Proof.
  intros oracle c n0 Hn.
  destruct (bit_length_bounds n0 Hn) as [_ Hlt].
  assert (Hp : 0 < 2 ^ Z.of_nat (bit_length n0))
    by (apply Z.pow_pos_nonneg; lia).
  pose proof (attack_digits oracle c) as Hres. fold n0 in Hres.
  unfold final, num_repetitions. fold n0. rewrite replies_rounds.
  split; intros Hall.
  - rewrite Hres by lia.
    rewrite (digits_all_true _ Hall).
    rewrite Z.add_0_l, Z.mul_1_r, Z.div_small by lia. reflexivity.
  - split.
    + apply answers_all_false, Hall.
    + rewrite Hres by lia.
      rewrite (digits_all_false _ Hall), answers_length.
      replace (n0 * (2 ^ Z.of_nat (bit_length n0) - 1 + 1))
        with (n0 * 2 ^ Z.of_nat (bit_length n0)) by ring.
      rewrite Z.div_mul by lia. reflexivity.
Qed.

(** Under [n = 17] the five queries are 2, 4, 8, 16 and 15; this oracle
    calls them all even and would call the sixth, 13, odd. *)
Lemma one_sided_answers_witness :
  decrypt_attack
    (mkOracle (mkRSA 17 (fun m => m) (fun c => if c =? 13 then 1 else 0))) 1 =
  Return [].
Proof.
  apply (one_sided_answers
           (mkOracle
              (mkRSA 17 (fun m => m) (fun c => if c =? 13 then 1 else 0))) 1).
  - cbn. lia.
  - vm_compute. repeat constructor.
Defined.

(** X9. An even modulus hides every plaintext.  When [n >= 1] is even and
    the key doubles homomorphically, every doubled plaintext is even, the
    oracle answers [True] in every round and the attack returns the empty
    string, whatever the target ciphertext decrypts to. *)
Theorem even_modulus_returns_nothing :
  forall oracle c,
    let n := n (rsa oracle) in
    Z.even n = true ->
    1 <= n ->
    homomorphic (rsa oracle) ->
    (forall i, answer oracle c i = true) /\
    decrypt_attack oracle c = Return [].
Proof.
  intros oracle c n0 Heven Hn Hhom.
  assert (Hall : forall i, answer oracle c i = true).
  { intros i.
    rewrite (answer_truthful oracle c _ Hhom eq_refl), doubled_plain_S.
    fold n0. set (r := doubled_plain n0 (decrypt (rsa oracle) c) i).
    rewrite Z.mod_eq by lia.
    rewrite Z.even_sub, !Z.even_mul, Heven. reflexivity. }
  split; [exact Hall|].
  pose proof (attack_digits oracle c) as Hres. fold n0 in Hres.
  rewrite Hres by lia.
  rewrite digits_all_true by (apply answers_Forall, Hall).
  destruct (bit_length_bounds n0 Hn) as [_ Hlt].
  rewrite Z.add_0_l, Z.mul_1_r, Z.div_small by lia. reflexivity.
Qed.

Lemma even_modulus_returns_nothing_witness :
  decrypt_attack (mkOracle (textbook_rsa 22 3 7)) 19 = Return [].
Proof.
  apply (even_modulus_returns_nothing (mkOracle (textbook_rsa 22 3 7)) 19).
  - reflexivity.
  - cbn. lia.
  - apply textbook_homomorphic; [lia|lia|lia|reflexivity].
Defined.

(** * Byte messages and main *)

(** ** Bytes to integer and back *)

Lemma byte_to_Z_range b : 0 <= byte_to_Z b < 256.
Proof.
  unfold byte_to_Z. pose proof (Byte.to_N_bounded b). lia.
Qed.

Lemma byte_of_Z_to_Z b : byte_of_Z (byte_to_Z b) = b.
Proof.
  unfold byte_of_Z. rewrite Z.mod_small by apply byte_to_Z_range.
  unfold byte_to_Z. now rewrite N2Z.id, Byte.of_to_N.
Qed.

Lemma byte_of_Z_mod z : byte_of_Z (z mod 256) = byte_of_Z z.
Proof. unfold byte_of_Z. now rewrite Z.mod_mod by lia. Qed.

Lemma decode_from acc l :
  fold_left (fun a b => a * 256 + byte_to_Z b) l acc =
  acc * 2 ^ (8 * Z.of_nat (length l)) + bytes_to_integer l.
Proof.
  unfold bytes_to_integer. revert acc.
  induction l as [|b l IH]; intros acc.
  - cbn. lia.
  - cbn [fold_left length]. rewrite IH, (IH (0 * 256 + byte_to_Z b)).
    replace (8 * Z.of_nat (S (length l)))
      with (8 + 8 * Z.of_nat (length l)) by lia.
    rewrite Z.pow_add_r by lia. change (2 ^ 8) with 256. ring.
Qed.

Lemma bytes_to_integer_cons b l :
  bytes_to_integer (b :: l) =
  byte_to_Z b * 2 ^ (8 * Z.of_nat (length l)) + bytes_to_integer l.
Proof.
  unfold bytes_to_integer at 1. cbn [fold_left]. now rewrite decode_from.
Qed.

Lemma bytes_to_integer_range l :
  0 <= bytes_to_integer l < 2 ^ (8 * Z.of_nat (length l)).
Proof.
  induction l as [|b l IH]; [cbn; lia|].
  rewrite bytes_to_integer_cons. pose proof (byte_to_Z_range b) as Hb.
  replace (8 * Z.of_nat (length (b :: l)))
    with (8 + 8 * Z.of_nat (length l)) by (cbn [length]; lia).
  rewrite Z.pow_add_r by lia. change (2 ^ 8) with 256. nia.
Qed.

(** The low [k] bytes of an integer do not see what lies above them. *)
Lemma to_bytes_big_above a y k :
  to_bytes_big (a * 2 ^ (8 * Z.of_nat k) + y) k = to_bytes_big y k.
Proof.
  unfold to_bytes_big. apply map_ext_in. intros j Hj.
  apply in_rev, in_seq in Hj.
  rewrite <- (byte_of_Z_mod (Z.shiftr y _)), <- byte_of_Z_mod. f_equal.
  rewrite !Z.shiftr_div_pow2 by lia.
  replace (8 * Z.of_nat k)
    with ((8 * Z.of_nat (k - j - 1) + 8) + 8 * Z.of_nat j) by lia.
  rewrite (Z.pow_add_r 2 _ (8 * Z.of_nat j)) by lia.
  rewrite Z.mul_assoc, Z.add_comm, Z.div_add
    by (apply Z.pow_nonzero; lia).
  rewrite Z.pow_add_r by lia. change (2 ^ 8) with 256.
  rewrite (Z.mul_assoc a), Z.mod_add by lia. reflexivity.
Qed.

(** On the width of the string, writing back what was read gives the
    string. *)
Lemma to_bytes_big_of_bytes l :
  to_bytes_big (bytes_to_integer l) (length l) = l.
Proof.
  induction l as [|b l IH]; [reflexivity|].
  cbn [length]. rewrite to_bytes_big_S, bytes_to_integer_cons.
  rewrite to_bytes_big_above, IH. f_equal.
  rewrite Z.shiftr_div_pow2 by lia.
  pose proof (bytes_to_integer_range l) as Hr.
  rewrite Z.div_add_l by lia.
  rewrite (Z.div_small (bytes_to_integer l)) by lia.
  rewrite Z.add_0_r. apply byte_of_Z_to_Z.
Qed.

Lemma byte_to_Z_zero b : byte_to_Z b = 0 -> b = x00.
Proof.
  intros H. rewrite <- (byte_of_Z_to_Z b), H. reflexivity.
Qed.

(** The byte width of a string that starts with a non-zero byte. *)
Lemma squeezed_width b l :
  b <> x00 ->
  Nat.div (bit_length (bytes_to_integer (b :: l)) + 7) 8 = S (length l).
Proof.
  intros Hb. set (x := bytes_to_integer (b :: l)).
  pose proof (bytes_to_integer_range (b :: l)) as Hx. fold x in Hx.
  cbn [length] in Hx.
  assert (Hlo : 2 ^ (8 * Z.of_nat (length l)) <= x).
  { unfold x. rewrite bytes_to_integer_cons.
    pose proof (bytes_to_integer_range l).
    pose proof (byte_to_Z_range b).
    assert (byte_to_Z b <> 0) by (intros H1; now apply byte_to_Z_zero in H1).
    nia. }
  assert (Hp : 0 < 2 ^ (8 * Z.of_nat (length l)))
    by (apply Z.pow_pos_nonneg; lia).
  destruct (bit_length_bounds x ltac:(lia)) as [Hge Hlt].
  assert (H1 : 8 * Z.of_nat (length l) < Z.of_nat (bit_length x)).
  { apply (Z.pow_lt_mono_r_iff 2); lia. }
  assert (H2 : Z.of_nat (bit_length x) < 8 * Z.of_nat (S (length l)) + 1).
  { apply (Z.pow_lt_mono_r_iff 2); [lia|lia|].
    rewrite Z.pow_add_r, Z.pow_1_r by lia. lia. }
  symmetry. apply (Nat.div_unique _ 8 _ (bit_length x + 7 - 8 * S (length l)));
    lia.
Qed.

(** Squeezing what a byte string stands for gives the string without its
    leading zero bytes. *)
Lemma squeezed_of_bytes l :
  integer_to_bytes_squeezed (bytes_to_integer l) = strip_zeros l.
Proof.
  induction l as [|b l IH]; [reflexivity|].
  destruct (Byte.byte_eq_dec b x00) as [->|Hb].
  - cbn [strip_zeros]. rewrite <- IH. reflexivity.
  - replace (strip_zeros (b :: l)) with (b :: l) by (destruct b; first [reflexivity | congruence]).
    unfold integer_to_bytes_squeezed. rewrite squeezed_width by exact Hb.
    apply (to_bytes_big_of_bytes (b :: l)).
Qed.

(** ** The attack on a byte message *)

Lemma attack_returns_plaintext oracle c m :
  Z.odd (n (rsa oracle)) = true ->
  0 <= m < n (rsa oracle) ->
  homomorphic (rsa oracle) ->
  decrypt (rsa oracle) c = m ->
  decrypt_attack oracle c = Return (integer_to_bytes_squeezed m).
Proof.
  intros Hodd Hm Hhom Hdec.
  pose proof (final_floor_is_plaintext oracle c m Hhom Hdec Hodd Hm) as Hfl.
  unfold final in Hfl. rewrite <- floor_high_rounds in Hfl.
  unfold decrypt_attack, final, num_repetitions in *.
  pose proof (bit_length_pos (n (rsa oracle)) ltac:(lia)) as Hk.
  destruct (bit_length (n (rsa oracle))) as [|k]; [lia|].
  now rewrite msg_rounds_S, Hfl.
Qed.

(** X10. The attack on an encrypted byte string.  When the modulus is odd
    and larger than the integer the message stands for, the key doubles
    homomorphically and decrypts what it encrypted, [decrypt_attack] on
    [rsa.encrypt(msg)] returns [msg] without its leading zero bytes: the
    message itself when it is empty or starts with a non-zero byte, a
    shorter string otherwise. *)
Theorem attack_recovers_bytes :
  forall oracle (message : bytes),
    let key := rsa oracle in
    let m := bytes_to_integer message in
    Z.odd (n key) = true ->
    m < n key ->
    homomorphic key ->
    decrypt key (encrypt key m) = m ->
    decrypt_attack oracle (encrypt_bytes key message) =
      Return (strip_zeros message) /\
    (hd_error message <> Some x00 ->
     decrypt_attack oracle (encrypt_bytes key message) = Return message).
Proof.
  intros oracle message key m Hodd Hm Hhom Hdec.
  assert (Hres : decrypt_attack oracle (encrypt_bytes key message) =
                 Return (strip_zeros message)).
  { rewrite <- squeezed_of_bytes.
    apply attack_returns_plaintext; try assumption.
    split; [apply bytes_to_integer_range|exact Hm]. }
  split; [exact Hres|].
  intros Hhd. rewrite Hres. f_equal.
  destruct message as [|b l]; [reflexivity|].
  destruct b; first [reflexivity | now elim Hhd].
Qed.

Lemma attack_recovers_bytes_witness :
  decrypt_attack odd_key (encrypt_bytes (rsa odd_key) [x00; x00; x07]) =
  Return [x07].
Proof.
  apply (attack_recovers_bytes odd_key [x00; x00; x07]).
  - reflexivity.
  - cbn. lia.
  - exact odd_key_homomorphic.
  - reflexivity.
Defined.

(** ** main *)

Lemma given_message_decoded :
  Base64.b64decode Base64.given_message = Some funky_cold_medina.
Proof. vm_compute. reflexivity. Qed.

Lemma stdout_rounds_length oracle c k :
  length (stdout (trace (rounds oracle c k))) = k.
Proof.
  induction k as [|k IH]; [reflexivity|].
  rewrite trace_rounds_S. unfold stdout in *.
  rewrite flat_map_app, length_app, IH. cbn. lia.
Qed.

(** X11. [main] end to end.  For every key [Oracle()] may have drawn whose
    modulus is odd and above the integer of the message, that doubles
    homomorphically and decrypts what it encrypted of the message, [main]
    raises nothing, writes the [bit_length n] lines of the loop and then
    [recovered_message] equal to the text of the given base64 string,
    "That's why I found you don't play around with the Funky Cold
    Medina". *)
Theorem main_recovers_message :
  forall key,
    let m := bytes_to_integer funky_cold_medina in
    Z.odd (n key) = true ->
    m < n key ->
    homomorphic key ->
    decrypt key (encrypt key m) = m ->
    exists iterations,
      main key = (iterations ++ [Recovered funky_cold_medina], None) /\
      length iterations = bit_length (n key) /\
      iterations = stdout (trace (final (mkOracle key) (encrypt key m))).
Proof.
  intros key m Hodd Hm Hhom Hdec.
  exists (stdout (trace (final (mkOracle key) (encrypt key m)))).
  split; [|split; [apply stdout_rounds_length|reflexivity]].
  unfold main. rewrite given_message_decoded. cbn [rsa].
  unfold encrypt_bytes. fold m.
  rewrite (attack_returns_plaintext (mkOracle key) (encrypt key m) m);
    try assumption.
  - unfold m. rewrite squeezed_of_bytes. reflexivity.
  - split; [apply bytes_to_integer_range|exact Hm].
Qed.

Lemma main_recovers_message_witness :
  exists iterations,
    main (textbook_rsa (2 ^ 536 + 1) 1 1) =
      (iterations ++ [Recovered funky_cold_medina], None) /\
    length iterations = bit_length (2 ^ 536 + 1) /\
    iterations =
      stdout (trace (final (mkOracle (textbook_rsa (2 ^ 536 + 1) 1 1))
                       (encrypt (textbook_rsa (2 ^ 536 + 1) 1 1)
                          (bytes_to_integer funky_cold_medina)))).
Proof.
  apply (main_recovers_message (textbook_rsa (2 ^ 536 + 1) 1 1)).
  - vm_compute. reflexivity.
  - vm_compute. reflexivity.
  - apply textbook_homomorphic; [reflexivity|lia|lia|vm_compute; reflexivity].
  - vm_compute. reflexivity.
Defined.
